(** * StudentAnalysisSystem: the extractor and the inspector scripts

    A shallow embedding of [extract_files.py] and [test.py] together with
    the properties their specification states about them.

    Python strings are lists of characters; the character type is the
    8-bit [ascii], read as the code points below 256.  The library calls
    the scripts make ([re.findall], [str.strip], [os.path.join],
    [os.path.dirname], [os.makedirs], [open], [csv.DictReader]) are
    modelled after their documented behaviour, over a file system of
    files and directories without links or permissions.  The records
    [csv.reader] parses out of the CSV file are an input of the
    inspector. *)

From Stdlib Require Import Strings.Ascii Strings.String Numbers.DecimalString.
From stdpp Require Import gmap strings list fin_maps.

Set Default Proof Using "Type".

(** ** Python strings *)

Abbreviation str := (list ascii).

Definition lit (s : string) : str := list_ascii_of_string s.

Definition nl : ascii := "010"%char.
Definition slash : ascii := "/"%char.

(** [s.startswith(p)], returning what follows the prefix. *)
Fixpoint strip_prefix (p s : str) : option str :=
  match p with
  | [] => Some s
  | a :: p' =>
      match s with
      | [] => None
      | b :: s' => if Ascii.eqb a b then strip_prefix p' s' else None
      end
  end.

Definition startswith (s p : str) : bool :=
  match strip_prefix p s with Some _ => true | None => false end.

(** [needle in s] *)
Fixpoint occurs (needle s : str) : bool :=
  startswith s needle ||
  match s with
  | [] => false
  | _ :: s' => occurs needle s'
  end.

(** ** Regular expressions: the fragment the extractor's pattern uses

    The matcher is a backtracking one, as Python's is: a lazy quantifier
    first tries the rest of the pattern and takes one more character only
    when that fails.  [re.DOTALL] is in force, so [.] takes any character,
    the newline included. *)
Module Re.

Inductive token :=
| TLit (s : str)      (* literal text, escapes resolved *)
| TAnyPlusLazy        (* .+? *)
| TAnyStarLazy        (* .*? *)
| TOpen               (* ( *)
| TClose.             (* ) *)

(** The text of every open group is kept reversed in [bufs]. *)
Definition feed (t : str) (bufs : list str) : list str :=
  map (fun b => rev t ++ b) bufs.

Fixpoint lazy_loop {A} (k : list str -> str -> option A)
    (bufs : list str) (s : str) : option A :=
  match k bufs s with
  | Some r => Some r
  | None =>
      match s with
      | [] => None
      | c :: s' => lazy_loop k (feed [c] bufs) s'
      end
  end.

(** [run ts bufs caps s]: match the tokens [ts] at the start of [s];
    the result is the captured groups and the text after the match. *)
Fixpoint run (ts : list token) (bufs caps : list str) (s : str)
    : option (list str * str) :=
  match ts with
  | [] => Some (caps, s)
  | TLit l :: ts' =>
      match strip_prefix l s with
      | Some s' => run ts' (feed l bufs) caps s'
      | None => None
      end
  | TAnyPlusLazy :: ts' =>
      match s with
      | [] => None
      | c :: s' => lazy_loop (fun bufs s => run ts' bufs caps s) (feed [c] bufs) s'
      end
  | TAnyStarLazy :: ts' =>
      lazy_loop (fun bufs s => run ts' bufs caps s) bufs s
  | TOpen :: ts' => run ts' ([] :: bufs) caps s
  | TClose :: ts' =>
      match bufs with
      | b :: bufs' => run ts' bufs' (caps ++ [rev b]) s
      | [] => None
      end
  end.

End Re.

(** ** The operating system: files, directories, standard output *)
Module Os.

(** The exceptions the two scripts can run into. *)
Inductive exn :=
| FileNotFoundError
| FileExistsError
| NotADirectoryError
| IsADirectoryError
| KeyError (key : str).

Inductive node :=
| File (data : str)
| Dir.

(** A file system maps the location of a node, the names from the root
    down to it, to the node; the root itself is always a directory.
    There are no links and no permissions. *)
Record world := World {
  files : gmap (list str) node;
  cwd : list str;
  stdout : list str
}.

Definition node_at (fs : gmap (list str) node) (loc : list str) : option node :=
  match loc with
  | [] => Some Dir
  | _ => fs !! loc
  end.

(** [s.split('/')] *)
Fixpoint split_sep (s : str) : list str :=
  match s with
  | [] => [[]]
  | c :: s' =>
      if Ascii.eqb c slash then [] :: split_sep s'
      else
        match split_sep s' with
        | h :: t => (c :: h) :: t
        | [] => [[c]]
        end
  end.

Inductive move :=
| Stay               (* an empty component or [.] *)
| Up                 (* [..] *)
| Down (name : str).

Definition classify (c : str) : move :=
  match c with
  | [] => Stay
  | _ =>
      if decide (c = lit ".") then Stay
      else if decide (c = lit "..") then Up
      else Down c
  end.

(** Path resolution through directories that exist. *)
Fixpoint walk (fs : gmap (list str) node) (cur : list str) (cs : list str)
    : exn + list str :=
  match cs with
  | [] => inr cur
  | c :: cs' =>
      match classify c with
      | Stay => walk fs cur cs'
      | Up => walk fs (removelast cur) cs'
      | Down name =>
          match node_at fs (cur ++ [name]) with
          | Some Dir => walk fs (cur ++ [name]) cs'
          | Some (File _) => inl NotADirectoryError
          | None => inl FileNotFoundError
          end
      end
  end.

(** The same walk, creating the directories that are missing. *)
Fixpoint mkdirs (fs : gmap (list str) node) (cur : list str) (cs : list str)
    : gmap (list str) node * (exn + list str) :=
  match cs with
  | [] => (fs, inr cur)
  | c :: cs' =>
      match classify c with
      | Stay => mkdirs fs cur cs'
      | Up => mkdirs fs (removelast cur) cs'
      | Down name =>
          match node_at fs (cur ++ [name]) with
          | Some Dir => mkdirs fs (cur ++ [name]) cs'
          | Some (File _) =>
              (fs, inl (match cs' with [] => FileExistsError | _ => NotADirectoryError end))
          | None => mkdirs (<[cur ++ [name] := Dir]> fs) (cur ++ [name]) cs'
          end
      end
  end.

(** *** Programs: a state and exception monad over the world *)
Definition M (A : Type) : Type := world -> world * (exn + A).

Definition ret {A} (x : A) : M A := fun w => (w, inr x).
Definition raise {A} (e : exn) : M A := fun w => (w, inl e).
Definition bind {A B} (m : M A) (k : A -> M B) : M B :=
  fun w =>
    match m w with
    | (w', inr x) => k x w'
    | (w', inl e) => (w', inl e)
    end.

Declare Scope prog_scope.
Delimit Scope prog_scope with prog.
Notation "x <- m ;; k" := (bind m (fun x => k))
  (at level 100, m at next level, right associativity) : prog_scope.
Notation "m ;; k" := (bind m (fun _ => k))
  (at level 100, right associativity) : prog_scope.
Open Scope prog_scope.

(** [for x in l: body(x)] *)
Fixpoint for_each {A} (l : list A) (body : A -> M unit) : M unit :=
  match l with
  | [] => ret tt
  | x :: l' => body x ;; for_each l' body
  end.

(** *** [str.strip] and [os.path] *)

(** [c.isspace()] for a code point below 256 *)
Definition isspace (c : ascii) : bool :=
  let n := nat_of_ascii c in
  (Nat.leb 9 n && Nat.leb n 13) || (Nat.leb 28 n && Nat.leb n 32)
  || Nat.eqb n 133 || Nat.eqb n 160.

Fixpoint lstrip_with (f : ascii -> bool) (s : str) : str :=
  match s with
  | [] => []
  | c :: s' => if f c then lstrip_with f s' else s
  end.

Definition rstrip_with (f : ascii -> bool) (s : str) : str :=
  rev (lstrip_with f (rev s)).

Definition strip (s : str) : str := rstrip_with isspace (lstrip_with isspace s).

Definition is_sep (c : ascii) : bool := Ascii.eqb c slash.

Definition endswith_sep (s : str) : bool :=
  match rev s with
  | c :: _ => is_sep c
  | [] => false
  end.

(** [os.path.join(a, b)] *)
Definition join (a b : str) : str :=
  if startswith b [slash] then b
  else if (match a with [] => true | _ => false end) || endswith_sep a then a ++ b
  else a ++ [slash] ++ b.

(** [p[:p.rfind('/') + 1]] *)
Fixpoint upto_last_sep (p : str) : str :=
  match p with
  | [] => []
  | c :: p' => if existsb is_sep p then c :: upto_last_sep p' else []
  end.

(** [os.path.basename(p)], that is [p[p.rfind('/') + 1:]] *)
Definition basename (p : str) : str := drop (length (upto_last_sep p)) p.

(** [os.path.dirname(p)] *)
Definition dirname (p : str) : str :=
  let head := upto_last_sep p in
  match head with
  | [] => head
  | _ => if forallb is_sep head then head else rstrip_with is_sep head
  end.

Definition origin (p : str) (w : world) : list str :=
  if startswith p [slash] then [] else cwd w.

(** The directory a path's last component lives in, and that component. *)
Definition locate (p : str) (w : world) : exn + (list str * move) :=
  match p with
  | [] => inl FileNotFoundError
  | _ =>
      match walk (files w) (origin p w) (split_sep (dirname p)) with
      | inl e => inl e
      | inr cur => inr (cur, classify (basename p))
      end
  end.

(** Where the file at [p] is, when the path resolves to a name in an
    existing directory. *)
Definition location (p : str) (w : world) : option (list str) :=
  match locate p w with
  | inr (cur, Down name) => Some (cur ++ [name])
  | _ => None
  end.

(** What is stored in the file at [p]. *)
Definition contents (p : str) (w : world) : exn + str :=
  match locate p w with
  | inl e => inl e
  | inr (cur, Down name) =>
      match node_at (files w) (cur ++ [name]) with
      | Some (File data) => inr data
      | Some Dir => inl IsADirectoryError
      | None => inl FileNotFoundError
      end
  | inr (_, _) => inl IsADirectoryError
  end.

(** Text mode reads with universal newlines: [\r\n] and a lone [\r]
    arrive as [\n]. *)
Definition cr : ascii := "013"%char.

Fixpoint universal_newlines (s : str) : str :=
  match s with
  | [] => []
  | c :: s' =>
      if Ascii.eqb c cr then
        nl :: match s' with
              | c' :: s'' =>
                  if Ascii.eqb c' nl then universal_newlines s''
                  else universal_newlines s'
              | [] => []
              end
      else c :: universal_newlines s'
  end.

(** [with open(p, 'r') as f: f.read()] *)
Definition read_text (p : str) : M str :=
  fun w =>
    match contents p w with
    | inl e => (w, inl e)
    | inr data => (w, inr (universal_newlines data))
    end.

(** [with open(p, 'w') as f: f.write(data)]: the file is created or
    truncated, then holds exactly [data]. *)
Definition write_file (p : str) (data : str) : M unit :=
  fun w =>
    match locate p w with
    | inl e => (w, inl e)
    | inr (cur, Down name) =>
        match node_at (files w) (cur ++ [name]) with
        | Some Dir => (w, inl IsADirectoryError)
        | _ =>
            (World (<[cur ++ [name] := File data]> (files w)) (cwd w) (stdout w),
             inr tt)
        end
    | inr (_, _) => (w, inl IsADirectoryError)
    end.

(** [os.makedirs(name, exist_ok=True)]: the leaf directory and every
    intermediate one that is missing are made; a directory that is there
    already is no error, a file in the way is. *)
Definition makedirs (name : str) : M unit :=
  fun w =>
    match name with
    | [] => (w, inl FileNotFoundError)
    | _ =>
        match mkdirs (files w) (origin name w) (split_sep name) with
        | (fs', inl e) => (World fs' (cwd w) (stdout w), inl e)
        | (fs', inr _) => (World fs' (cwd w) (stdout w), inr tt)
        end
    end.

(** [os.path.isdir(name)] *)
Definition isdir (name : str) (w : world) : bool :=
  match name with
  | [] => false
  | _ =>
      match walk (files w) (origin name w) (split_sep name) with
      | inr _ => true
      | inl _ => false
      end
  end.

(** The world after some more lines of output. *)
Definition say (lines : list str) (w : world) : world :=
  World (files w) (cwd w) (stdout w ++ lines).

(** [print(line)] *)
Definition print (line : str) : M unit :=
  fun w => (say [line] w, inr tt).

(** *** Comparing file systems *)

Inductive kind := KFile | KDir.

Definition kind_at (fs : gmap (list str) node) (loc : list str) : option kind :=
  match node_at fs loc with
  | Some Dir => Some KDir
  | Some (File _) => Some KFile
  | None => None
  end.

(** [fs'] has every node of [fs], files as files and directories as
    directories. *)
Definition extends (fs fs' : gmap (list str) node) : Prop :=
  forall loc k, kind_at fs loc = Some k -> kind_at fs' loc = Some k.

(** Nothing but directories on the way to [dir], and no directory where
    the file [name] is to go. *)
Definition clear_way (fs : gmap (list str) node) (dir : list str) (name : str)
    : Prop :=
  (forall n, kind_at fs (take n dir) <> Some KFile)
  /\ kind_at fs (dir ++ [name]) <> Some KDir.

(** How a second run [G -> G'] relates to a first run [w -> w'] at every
    location: both left it alone, or the second has made it what the
    first made it. *)
Definition tracks (w w' G G' : world) : Prop :=
  forall loc,
    (files G' !! loc = files G !! loc /\ files w' !! loc = files w !! loc)
    \/ files G' !! loc = files w' !! loc.

(** The number of files, directories not counted. *)
Definition file_count (w : world) : nat :=
  length (List.filter (fun entry => match entry.2 with File _ => true | Dir => false end)
                      (map_to_list (files w))).

End Os.

(** ** The extractor, [extract_files.py] *)
Module Extractor.
Import Re Os.

(** [pattern = r'### \*\*(.+?\.swift)\*\*\n```swift\n(.*?)\n```'] *)
Definition header_open : str := lit "### **".
Definition ext : str := lit ".swift".
Definition fence_open : str := lit "**" ++ [nl] ++ lit "```swift" ++ [nl].
Definition fence_close : str := [nl] ++ lit "```".

Definition pattern : list token :=
  [ TLit header_open; TOpen; TAnyPlusLazy; TLit ext; TClose;
    TLit fence_open; TOpen; TAnyStarLazy; TClose; TLit fence_close ].

(** One match attempt at the start of [s]: the two groups and the text
    that follows the match. *)
Definition match_here (s : str) : option (str * str * str) :=
  match run pattern [] [] s with
  | Some ([filepath; code], rest) => Some (filepath, code, rest)
  | _ => None
  end.

(** [re.findall(pattern, content, re.DOTALL)]: scan from the left; after a
    match the scan goes on behind it, otherwise one character further.  A
    match of this pattern is never empty, so the remaining text shrinks in
    every round and [length content + 1] rounds are enough. *)
Fixpoint findall_from (fuel : nat) (s : str) : list (str * str) :=
  match fuel with
  | 0 => []
  | S fuel' =>
      match match_here s with
      | Some (filepath, code, rest) => (filepath, code) :: findall_from fuel' rest
      | None =>
          match s with
          | [] => []
          | _ :: s' => findall_from fuel' s'
          end
      end
  end.

Definition findall (content : str) : list (str * str) :=
  findall_from (S (length content)) content.

Definition base : str :=
  lit "/Users/fredrickburns/Code_Repositories/StudentAnalysisSystem".

(** The body of the loop over the matches. *)
Definition extract_one (m : str * str) : M unit :=
  let '(filepath, code) := m in
  let filepath := strip filepath in
  let full_path := join base filepath in
  makedirs (dirname full_path) ;;
  write_file full_path code ;;
  print (lit "Written: " ++ filepath).

Definition extract_swift_files (input_file : str) : M unit :=
  content <- read_text input_file ;;
  let matches := findall content in
  for_each matches extract_one.

Definition main : M unit :=
  extract_swift_files (lit "remaining_files.txt") ;;
  print ([nl] ++ lit "Extraction complete!").

(** *** Documents in the extractor's format *)

(** The text of one section: the header with the path, the opening
    fence, the code, the closing fence. *)
Definition section_text (filepath code : str) : str :=
  header_open ++ filepath ++ fence_open ++ code ++ fence_close.

(** A section is well formed when its header is one line that names a
    path ending in [.swift] with something in front of the extension, and
    its code contains no closing fence. *)
Definition well_formed (entry : str * str) : Prop :=
  (exists a x, entry.1 = a :: x ++ ext /\ nl ∉ a :: x)
  /\ occurs fence_close entry.2 = false.

(** Text between sections contains no header marker. *)
Definition plain_text (t : str) : Prop := occurs header_open t = false.

(** A document: sections, each behind some plain text, and a tail. *)
Fixpoint document (parts : list (str * (str * str))) (tail : str) : str :=
  match parts with
  | [] => tail
  | (text, (filepath, code)) :: parts' =>
      text ++ section_text filepath code ++ document parts' tail
  end.

(** Where the loop writes the match with the path [filepath]. *)
Definition destination (filepath : str) : str := join base (strip filepath).

(** What the loop reports for it. *)
Definition written_line (filepath : str) : str :=
  lit "Written: " ++ strip filepath.

(** *** Sample documents and worlds *)

Definition hello_world : str := lit "hello" ++ [nl] ++ lit "world".

(** The section of the round-trip property, with the path as the
    specification has it and with a [.swift] path. *)
Definition txt_doc : str := section_text (lit "a/b/c.txt") hello_world.
Definition swift_doc : str := section_text (lit "a/b/c.swift") hello_world.

(** Where [a/b/c.swift] goes. *)
Definition swift_dir : list str :=
  [lit "Users"; lit "fredrickburns"; lit "Code_Repositories";
   lit "StudentAnalysisSystem"; lit "a"; lit "b"].

(** Two sections that name the same path. *)
Definition twice_parts : list (str * (str * str)) :=
  [([], (lit "a.swift", lit "A")); ([nl], (lit "a.swift", lit "B"))].

(** A section with another extension in front of a [.swift] section. *)
Definition mixed_doc : str :=
  txt_doc ++ [nl] ++ section_text (lit "d.swift") (lit "B").

Definition swallowed_path : str :=
  lit "a/b/c.txt**" ++ [nl] ++ lit "```swift" ++ [nl] ++ hello_world
  ++ [nl] ++ lit "```" ++ [nl] ++ lit "### **d.swift".

Definition input_name : str := lit "remaining_files.txt".

(** A world that holds the document in the working directory and
    nothing else. *)
Definition sample_world (doc : str) : world :=
  World {[ [input_name] := File doc ]} [] [].

End Extractor.

(** ** The inspector, [test.py] *)
Module Inspector.
Import Os.

(** A row of [csv.DictReader]: the dictionary from the field names to the
    values, where a value is a string or [None] (the default [restval] of
    a short record), and under the key [None] (the default [restkey]) the
    surplus values of a long record. *)
Record row := Row {
  fields : gmap str (option str);
  surplus : option (list str)
}.

(** [dict(zip(fieldnames, record))] *)
Fixpoint dict_zip (fieldnames record : list str) (d : gmap str (option str))
    : gmap str (option str) :=
  match fieldnames, record with
  | key :: fieldnames', value :: record' =>
      dict_zip fieldnames' record' (<[key := Some value]> d)
  | _, _ => d
  end.

(** [for key in keys: d[key] = None] *)
Fixpoint fill_none (keys : list str) (d : gmap str (option str))
    : gmap str (option str) :=
  match keys with
  | [] => d
  | key :: keys' => fill_none keys' (<[key := None]> d)
  end.

Definition make_row (fieldnames record : list str) : row :=
  let d := dict_zip fieldnames record ∅ in
  let lf := length fieldnames in
  let lr := length record in
  if Nat.ltb lf lr then Row d (Some (drop lf record))
  else if Nat.ltb lr lf then Row (fill_none (drop lr fieldnames) d) None
  else Row d None.

Definition is_blank (record : list str) : bool :=
  match record with [] => true | _ => false end.

(** The rows [csv.DictReader] yields from the records of [csv.reader]:
    the first record gives the field names, blank records are skipped. *)
Definition DictReader (records : list (list str)) : list row :=
  match records with
  | [] => []
  | fieldnames :: data =>
      map (make_row fieldnames) (filter (fun r => negb (is_blank r)) data)
  end.

(** [row[key]] *)
Definition getitem (r : row) (key : str) : M (option str) :=
  match fields r !! key with
  | Some v => ret v
  | None => raise (KeyError key)
  end.

(** How an f-string shows a value. *)
Definition format (v : option str) : str :=
  match v with
  | Some s => s
  | None => lit "None"
  end.

Definition decimal (n : nat) : str := lit (NilZero.string_of_uint (Nat.to_uint n)).

Definition preview (r : row) : M unit :=
  msis <- getitem r (lit "MSIS") ;;
  d1op <- getitem r (lit "D1OP") ;;
  dtop <- getitem r (lit "DTOP") ;;
  scale <- getitem r (lit "SCALE_SCORE") ;;
  print (lit "MSIS: " ++ format msis ++ lit ", D1OP: " ++ format d1op
         ++ lit ", DTOP: " ++ format dtop ++ lit ", SCALE: " ++ format scale).

(** The loop over the reader; it returns the final [count]. *)
Fixpoint loop (rows : list row) (count : nat) : M nat :=
  match rows with
  | [] => ret count
  | r :: rows' =>
      (if Nat.ltb count 5 then preview r else ret tt) ;;
      loop rows' (count + 1)
  end.

(** The script.  [opened] is what [open] and [csv.reader] make of the file
    at the fixed path: the exception [open] raises when the file does not
    exist or cannot be read, or the records of the file, a blank line
    being the empty record. *)
Definition inspector (opened : exn + list (list str)) : M unit :=
  match opened with
  | inl e => raise e
  | inr records =>
      count <- loop (DictReader records) 0 ;;
      print (lit "Total rows: " ++ decimal count)
  end.

(** The line [preview] prints for a row that has the four columns. *)
Definition field (r : row) (key : str) : option str :=
  default None (fields r !! key).

Definition preview_line (r : row) : str :=
  lit "MSIS: " ++ format (field r (lit "MSIS"))
  ++ lit ", D1OP: " ++ format (field r (lit "D1OP"))
  ++ lit ", DTOP: " ++ format (field r (lit "DTOP"))
  ++ lit ", SCALE: " ++ format (field r (lit "SCALE_SCORE")).

Definition columns : list str :=
  [lit "MSIS"; lit "D1OP"; lit "DTOP"; lit "SCALE_SCORE"].

Definition has_columns (r : row) : Prop :=
  Forall (fun key => is_Some (fields r !! key)) columns.

(** The records of a file that are not blank. *)
Definition data_rows (data : list (list str)) : list (list str) :=
  filter (fun r => negb (is_blank r)) data.

(** Sample files. *)
Definition sample_record : list str := [lit "7"; lit "A"; lit "B"; lit "650"].
Definition sample_file : list (list str) := columns :: repeat sample_record 10.
Definition short_header : list str := [lit "MSIS"].
Definition blank_world : world := World ∅ [] [].

End Inspector.

(** ** Further notions the properties use *)
Module Notions.
Import Os Extractor Inspector.

(** The last line of the extractor script. *)
Definition completion_line : str := [nl] ++ lit "Extraction complete!".

(** A location whose last name ends in [.swift]. *)
Definition swift_name (loc : list str) : Prop :=
  exists dir name, loc = dir ++ [name ++ ext].

(** The first of the four columns, in the order the preview reads them,
    that the header lacks. *)
Definition first_missing (fieldnames : list str) : option str :=
  List.find (fun key => negb (bool_decide (key ∈ fieldnames))) columns.

(** The least number of characters a match takes: the header marker, a
    path of one character and the extension, the opening fence, no code
    and the closing fence. *)
Definition min_section : nat :=
  length header_open + (1 + length ext) + length fence_open + length fence_close.

(** A document whose second section needs a directory where the first
    has put a file. *)
Definition blocked_doc : str :=
  section_text (lit "a.swift") (lit "A") ++ [nl]
  ++ section_text (lit "a.swift/b.swift") (lit "B").

(** A section whose lines end in a carriage return and a line feed. *)
Definition crlf_doc : str :=
  lit "### **a.swift**" ++ [cr; nl] ++ lit "```swift" ++ [cr; nl]
  ++ lit "A" ++ [cr; nl] ++ lit "```".

(** How a line of a file ends. *)
Inductive line_end := LF | CR | CRLF.

Definition end_text (e : line_end) : str :=
  match e with
  | LF => [nl]
  | CR => [cr]
  | CRLF => [cr; nl]
  end.

(** A text as its lines, each with its end, and what is behind the last
    line end. *)
Fixpoint text_of (lines : list (str * line_end)) (last : str) : str :=
  match lines with
  | [] => last
  | (l, e) :: lines' => l ++ end_text e ++ text_of lines' last
  end.

(** The same lines, each ended by a line feed. *)
Definition unix_text (lines : list (str * line_end)) (last : str) : str :=
  text_of (map (fun l => (l.1, LF)) lines) last.

(** A line is free of line ends. *)
Definition one_line (l : str) : Prop := (cr ∉ l) /\ (nl ∉ l).

(** A line ended by a lone carriage return in front of an empty line
    ended by a line feed: the two ends read as one. *)
Fixpoint clash (lines : list (str * line_end)) : bool :=
  match lines with
  | [] => false
  | (_, e) :: lines' =>
      match e, lines' with
      | CR, ([], LF) :: _ => true
      | _, _ => clash lines'
      end
  end.

(** [crlf_doc] and its version for the classic Mac, line by line. *)
Definition crlf_lines : list (str * line_end) :=
  [(lit "### **a.swift**", CRLF); (lit "```swift", CRLF); (lit "A", CRLF)].
Definition cr_lines : list (str * line_end) :=
  [(lit "### **a.swift**", CR); (lit "```swift", CR); (lit "A", CR)].

End Notions.

(** * Properties *)

(** ** The inspector *)
Module InspectorFacts.
Import Os Inspector.

Lemma dict_zip_keeps fieldnames record d key :
  is_Some (d !! key) -> is_Some (dict_zip fieldnames record d !! key).
Proof.
  revert record d.
  induction fieldnames as [|k fieldnames IH]; intros [|v record] d Hd; simpl; auto.
  apply IH. destruct (decide (k = key)) as [->|Hne].
  - rewrite lookup_insert_eq. eauto.
  - rewrite lookup_insert_ne; auto.
Qed.

Lemma dict_zip_take fieldnames record d key :
  key ∈ take (length record) fieldnames ->
  is_Some (dict_zip fieldnames record d !! key).
Proof.
  revert record d.
  induction fieldnames as [|k fieldnames IH]; intros [|v record] d; simpl;
    try (intros H; inversion H; fail).
  intros H. apply elem_of_cons in H as [->|H].
  - apply dict_zip_keeps. rewrite lookup_insert_eq. eauto.
  - apply IH, H.
Qed.

Lemma fill_none_keeps keys d key :
  is_Some (d !! key) -> is_Some (fill_none keys d !! key).
Proof.
  revert d. induction keys as [|k keys IH]; intros d Hd; simpl; auto.
  apply IH. destruct (decide (k = key)) as [->|Hne].
  - rewrite lookup_insert_eq. eauto.
  - rewrite lookup_insert_ne; auto.
Qed.

Lemma fill_none_in keys d key :
  key ∈ keys -> is_Some (fill_none keys d !! key).
Proof.
  revert d. induction keys as [|k keys IH]; intros d H; simpl.
  - inversion H.
  - apply elem_of_cons in H as [->|H].
    + apply fill_none_keeps. rewrite lookup_insert_eq. eauto.
    + apply IH, H.
Qed.

(** A column of the header is a key of every row. *)
Lemma make_row_has fieldnames record key :
  key ∈ fieldnames -> is_Some (fields (make_row fieldnames record) !! key).
Proof.
  intros Hin. unfold make_row.
  rewrite <- (take_drop (length record) fieldnames) in Hin.
  apply elem_of_app in Hin as [Hin|Hin].
  - destruct (Nat.ltb _ _); [|destruct (Nat.ltb _ _)]; simpl;
      try apply fill_none_keeps; apply dict_zip_take, Hin.
  - destruct (Nat.ltb (length fieldnames) (length record)) eqn:E1.
    + apply Nat.ltb_lt in E1. rewrite drop_ge in Hin by lia. inversion Hin.
    + destruct (Nat.ltb (length record) (length fieldnames)) eqn:E2.
      * simpl. apply fill_none_in, Hin.
      * apply Nat.ltb_ge in E2. rewrite drop_ge in Hin by lia. inversion Hin.
Qed.

Lemma dict_zip_lacks fieldnames record d key :
  key ∉ fieldnames -> d !! key = None ->
  dict_zip fieldnames record d !! key = None.
Proof.
  revert record d.
  induction fieldnames as [|k fieldnames IH]; intros [|v record] d Hk Hd; simpl; auto.
  apply not_elem_of_cons in Hk as [Hne Hk].
  apply IH; auto. rewrite lookup_insert_ne; auto.
Qed.

Lemma fill_none_lacks keys d key :
  key ∉ keys -> d !! key = None -> fill_none keys d !! key = None.
Proof.
  revert d. induction keys as [|k keys IH]; intros d Hk Hd; simpl; auto.
  apply not_elem_of_cons in Hk as [Hne Hk].
  apply IH; auto. rewrite lookup_insert_ne; auto.
Qed.

(** A column the header lacks is a key of no row. *)
Lemma make_row_lacks fieldnames record key :
  key ∉ fieldnames -> fields (make_row fieldnames record) !! key = None.
Proof.
  intros Hk. unfold make_row.
  assert (dict_zip fieldnames record ∅ !! key = None) as Hz
    by (apply dict_zip_lacks; auto).
  destruct (Nat.ltb _ _); [|destruct (Nat.ltb _ _)]; simpl; auto.
  apply fill_none_lacks; auto.
  intros Hin. apply Hk. apply list_elem_of_lookup in Hin as [i Hi].
  rewrite lookup_drop in Hi. eapply list_elem_of_lookup_2, Hi.
Qed.

Lemma preview_ok r w :
  has_columns r -> preview r w = (say [preview_line r] w, inr tt).
Proof.
  intros H. unfold has_columns, columns in H.
  rewrite !Forall_cons in H.
  destruct H as ([a Ha] & [b Hb] & [c Hc] & [d Hd] & _).
  unfold preview, preview_line, field, bind, getitem, say.
  rewrite Ha, Hb, Hc, Hd. reflexivity.
Qed.

Lemma say_say l1 l2 w : say l2 (say l1 w) = say (l1 ++ l2) w.
Proof. unfold say; simpl. by rewrite app_assoc. Qed.

Lemma say_nil w : say [] w = w.
Proof. destruct w; unfold say; simpl. by rewrite app_nil_r. Qed.

(** The loop prints the rows it meets while [count < 5] and counts all. *)
Lemma loop_ok rows count w :
  Forall has_columns rows ->
  loop rows count w =
    (say (map preview_line (take (5 - count) rows)) w, inr (count + length rows)).
Proof.
  revert count w. induction rows as [|r rows IH]; intros count w Hrows.
  - simpl. rewrite take_nil, say_nil, Nat.add_0_r. reflexivity.
  - apply Forall_cons in Hrows as [Hr Hrows].
    cbn [loop length]. unfold bind at 1.
    replace (count + S (length rows)) with (count + 1 + length rows) by lia.
    destruct (Nat.ltb count 5) eqn:E.
    + apply Nat.ltb_lt in E. rewrite preview_ok by done.
      rewrite IH by done. rewrite say_say.
      replace (5 - count) with (S (5 - (count + 1))) by lia. reflexivity.
    + apply Nat.ltb_ge in E. unfold ret. rewrite IH by done.
      replace (5 - count) with 0 by lia. replace (5 - (count + 1)) with 0 by lia.
      reflexivity.
Qed.

Lemma preview_missing r w :
  ¬ has_columns r ->
  exists key, key ∈ columns /\ fields r !! key = None
              /\ preview r w = (w, inl (KeyError key)).
Proof.
  intros Hno. unfold preview, bind, getitem.
  destruct (fields r !! lit "MSIS") as [a|] eqn:Ha;
    [|exists (lit "MSIS"); repeat split; auto; unfold columns; set_solver].
  destruct (fields r !! lit "D1OP") as [b|] eqn:Hb;
    [|exists (lit "D1OP"); repeat split; auto; unfold columns; set_solver].
  destruct (fields r !! lit "DTOP") as [c|] eqn:Hc;
    [|exists (lit "DTOP"); repeat split; auto; unfold columns; set_solver].
  destruct (fields r !! lit "SCALE_SCORE") as [d|] eqn:Hd;
    [|exists (lit "SCALE_SCORE"); repeat split; auto; unfold columns; set_solver].
  exfalso. apply Hno. unfold has_columns, columns.
  repeat (apply Forall_cons; split); eauto.
Qed.

Lemma length_DictReader fieldnames data :
  length (DictReader (fieldnames :: data)) = length (data_rows data).
Proof. unfold DictReader, data_rows. apply length_map. Qed.

Lemma DictReader_has_columns fieldnames data :
  columns ⊆ fieldnames -> Forall has_columns (DictReader (fieldnames :: data)).
Proof.
  intros Hc. unfold DictReader. apply Forall_map, Forall_forall.
  intros record _. unfold has_columns. apply Forall_forall.
  intros key Hk. apply make_row_has, Hc, Hk.
Qed.

(** C5: for a file whose header has the four columns, the inspector
    prints the preview line of each of the first five rows, then the line
    [Total rows: n] where [n] counts every data row, and ends normally;
    with ten data rows that is five preview lines and [Total rows: 10]. *)
Theorem inspector_preview_bound fieldnames data w :
  columns ⊆ fieldnames ->
  let rows := DictReader (fieldnames :: data) in
  Forall has_columns rows
  /\ inspector (inr (fieldnames :: data)) w =
       (say (map preview_line (take 5 rows)
             ++ [lit "Total rows: " ++ decimal (length (data_rows data))]) w,
        inr tt)
  /\ (length (data_rows data) = 10 ->
       length (map preview_line (take 5 rows)) = 5
       /\ lit "Total rows: " ++ decimal (length (data_rows data))
          = lit "Total rows: 10").
Proof.
  intros Hc rows. subst rows.
  pose proof (DictReader_has_columns fieldnames data Hc) as Hrows.
  split; [done|]. split.
  - unfold inspector, bind. rewrite (loop_ok _ 0 w Hrows).
    rewrite length_DictReader. unfold print, say; cbn [files cwd stdout].
    rewrite <- app_assoc. reflexivity.
  - intros H10. rewrite H10. split; [|reflexivity].
    rewrite length_map, length_take, length_DictReader, H10. reflexivity.
Qed.

Lemma inspector_preview_bound_witness :
  length (stdout (fst (inspector (inr sample_file) blank_world))) = 6
  /\ List.last (stdout (fst (inspector (inr sample_file) blank_world))) []
     = lit "Total rows: 10".
Proof.
  destruct (inspector_preview_bound columns (repeat sample_record 10) blank_world)
    as (_ & Hrun & _).
  - intros key Hk. exact Hk.
  - unfold sample_file. rewrite Hrun. split; reflexivity.
Defined.

(** C6: a file with a header and no data rows prints no preview line,
    prints [Total rows: 0] and ends normally. *)
Theorem inspector_empty_file fieldnames w :
  inspector (inr [fieldnames]) w = (say [lit "Total rows: 0"] w, inr tt).
Proof. reflexivity. Qed.

(** C8 as stated fails: a header that lacks three of the four columns,
    with no data row under it, is inspected without any error. *)
Lemma inspector_missing_column_no_error :
  ¬ columns ⊆ short_header
  /\ inspector (inr [short_header]) blank_world
     = (say [lit "Total rows: 0"] blank_world, inr tt).
Proof.
  split; [|reflexivity].
  intros H. specialize (H (lit "D1OP")).
  unfold columns, short_header in H.
  assert (lit "D1OP" ∈ [lit "MSIS"]) as Hin by (apply H; set_solver).
  apply list_elem_of_singleton in Hin. discriminate Hin.
Qed.

(** C8, amended: the inspector fails with the exception of [open] when
    the file cannot be opened, and with a [KeyError] for a column the
    header lacks when there is at least one data row; in both cases
    nothing has been printed. *)
Theorem inspector_fails opened w :
  match opened with
  | inl _ => True
  | inr records =>
      exists fieldnames data,
        records = fieldnames :: data
        /\ ¬ columns ⊆ fieldnames /\ data_rows data <> []
  end ->
  exists e,
    inspector opened w = (w, inl e)
    /\ match opened with
       | inl e0 => e = e0
       | inr records =>
           exists key, e = KeyError key /\ key ∈ columns /\ key ∉ hd [] records
       end.
Proof.
  destruct opened as [e0|records].
  - intros _. exists e0. split; reflexivity.
  - intros (fieldnames & data & -> & Hmiss & Hdata).
    unfold inspector, bind, DictReader. fold (data_rows data).
    destruct (data_rows data) as [|record rest]; [done|].
    cbn [map loop Nat.ltb Nat.leb]. unfold bind at 1.
    destruct (preview_missing (make_row fieldnames record) w)
      as (key & Hkey & Hnone & Hrun).
    + intros Hall. apply Hmiss. intros key Hk.
      destruct (decide (key ∈ fieldnames)) as [|Hno]; [done|].
      unfold has_columns in Hall.
      apply (proj1 (Forall_forall _ _) Hall) in Hk.
      rewrite (make_row_lacks _ record _ Hno) in Hk. by destruct Hk.
    + rewrite Hrun. exists (KeyError key). split; [reflexivity|].
      exists key. repeat split; auto. simpl.
      intros Hin. pose proof (make_row_has fieldnames record key Hin) as [v Hv].
      congruence.
Qed.

Lemma inspector_fails_witness :
  exists e,
    inspector (inr [short_header; sample_record]) blank_world = (blank_world, inl e)
    /\ exists key, e = KeyError key /\ key ∈ columns /\ key ∉ short_header.
Proof.
  apply (inspector_fails (inr [short_header; sample_record]) blank_world).
  exists short_header, [sample_record]. split; [reflexivity|]. split.
  - intros H. specialize (H (lit "D1OP")).
    assert (lit "D1OP" ∈ short_header) as Hin by (apply H; unfold columns; set_solver).
    apply list_elem_of_singleton in Hin. discriminate Hin.
  - discriminate.
Defined.

End InspectorFacts.

(** ** Strings and the matcher *)
Module ReFacts.
Import Re.

Lemma strip_prefix_spec p s r : strip_prefix p s = Some r <-> s = p ++ r.
Proof.
  revert s. induction p as [|a p IH]; intros s; simpl.
  - split; congruence.
  - destruct s as [|b s]; [split; discriminate|].
    destruct (Ascii.eqb_spec a b) as [->|Hne].
    + rewrite IH. split; congruence.
    + split; [discriminate|]. intros H. congruence.
Qed.

Lemma strip_prefix_app p r : strip_prefix p (p ++ r) = Some r.
Proof. by apply strip_prefix_spec. Qed.

Lemma startswith_spec s p : startswith s p = true <-> exists r, s = p ++ r.
Proof.
  unfold startswith. destruct (strip_prefix p s) as [r|] eqn:E.
  - apply strip_prefix_spec in E. split; eauto.
  - split; [discriminate|]. intros [r Hr].
    apply strip_prefix_spec in Hr. congruence.
Qed.

Lemma occurs_spec needle s :
  occurs needle s = true <-> exists a b, s = a ++ needle ++ b.
Proof.
  induction s as [|c s IH]; simpl; rewrite orb_true_iff, startswith_spec.
  - split.
    + intros [[r Hr]|]; [|discriminate]. exists [], r. done.
    + intros (a & b & H). left. destruct a; simpl in H; [eauto|discriminate].
  - rewrite IH. split.
    + intros [[r Hr]|(a & b & ->)].
      * exists [], r. done.
      * exists (c :: a), b. done.
    + intros (a & b & H). destruct a as [|c' a]; simpl in H.
      * left. eauto.
      * right. exists a, b. congruence.
Qed.

Lemma occurs_false needle s a b :
  occurs needle s = false -> s = a ++ b -> startswith b needle = false.
Proof.
  intros Hocc ->. destruct (startswith b needle) eqn:E; [|done].
  apply startswith_spec in E as [r ->].
  assert (occurs needle (a ++ needle ++ r) = true) by (apply occurs_spec; eauto).
  congruence.
Qed.

Lemma feed_nil bufs : feed [] bufs = bufs.
Proof. unfold feed. simpl. apply List.map_id. Qed.

Lemma feed_feed a b bufs : feed b (feed a bufs) = feed (a ++ b) bufs.
Proof.
  unfold feed. rewrite List.map_map. apply List.map_ext.
  intros t. by rewrite rev_app_distr, app_assoc.
Qed.

(** The lazy loop stops at the first split of the text at which the rest
    of the pattern matches. *)
Lemma lazy_loop_spec {A} (k : list str -> str -> option A) bufs s r :
  lazy_loop k bufs s = Some r <->
  exists a b,
    s = a ++ b /\ k (feed a bufs) b = Some r
    /\ forall a' b', s = a' ++ b' -> length a' < length a ->
                     k (feed a' bufs) b' = None.
Proof.
  split.
  - revert bufs. induction s as [|c s IH]; intros bufs; simpl.
    + destruct (k bufs []) as [r'|] eqn:E; [|discriminate].
      intros [= ->]. exists [], []. rewrite feed_nil.
      repeat split; auto. simpl. lia.
    + destruct (k bufs (c :: s)) as [r'|] eqn:E.
      * intros [= ->]. exists [], (c :: s). rewrite feed_nil.
        repeat split; auto. simpl. lia.
      * intros H. apply IH in H as (a & b & -> & Hk & Hmin).
        exists (c :: a), b. rewrite feed_feed in Hk.
        repeat split; auto.
        intros a' b' Hs Hlen. destruct a' as [|c' a'].
        -- simpl in Hs. subst b'. by rewrite feed_nil.
        -- simpl in Hs, Hlen. injection Hs as -> Hs.
           specialize (Hmin a' b' Hs ltac:(lia)).
           by rewrite feed_feed in Hmin.
  - intros (a & b & -> & Hk & Hmin). revert bufs Hk Hmin.
    induction a as [|c a IH]; intros bufs Hk Hmin.
    + rewrite feed_nil in Hk. simpl. destruct b; simpl; by rewrite Hk.
    + simpl. rewrite <- (feed_nil bufs) at 1.
      rewrite (Hmin [] (c :: a ++ b)) by (simpl; auto; lia).
      apply IH.
      * by rewrite feed_feed.
      * intros a' b' Hs Hlen. rewrite feed_feed.
        apply Hmin; simpl; [congruence|lia].
Qed.

End ReFacts.

Module MatchFacts.
Import Re Os Extractor ReFacts.

Lemma strip_prefix_cat p q s :
  strip_prefix (p ++ q) s =
  match strip_prefix p s with
  | Some s' => strip_prefix q s'
  | None => None
  end.
Proof.
  revert s. induction p as [|a p IH]; intros s; simpl; [done|].
  destruct s as [|b s]; [done|]. destruct (Ascii.eqb a b); auto.
Qed.

Lemma startswith_false s p : startswith s p = false -> strip_prefix p s = None.
Proof. unfold startswith. by destruct (strip_prefix p s). Qed.

Lemma app_split_shorter {A} (a b a' b' : list A) :
  a ++ b = a' ++ b' -> length a' < length a ->
  exists m, a = a' ++ m /\ b' = m ++ b.
Proof.
  intros H Hlen. apply app_eq_inv in H as [(k & -> & ->)|(k & -> & ->)]; [eauto|].
  rewrite length_app in Hlen. lia.
Qed.

Lemma rev_group (e x : str) a :
  rev (rev e ++ rev x ++ rev [a] ++ []) = a :: x ++ e.
Proof. rewrite app_nil_r, !rev_app_distr, !rev_involutive. by rewrite <- app_assoc. Qed.

Lemma rev_group0 (y : str) : rev (rev y ++ []) = y.
Proof. by rewrite app_nil_r, rev_involutive. Qed.

(** A match is an occurrence of a header, a path that ends in [.swift],
    the opening fence, the code and the closing fence, and the code
    reaches to the first closing fence behind the opening one. *)
Lemma match_here_sound s p c rest :
  match_here s = Some (p, c, rest) ->
  (exists a x, p = a :: x ++ ext)
  /\ s = header_open ++ p ++ fence_open ++ c ++ fence_close ++ rest
  /\ forall c1 c2, c = c1 ++ c2 -> length c1 < length c ->
       startswith (c2 ++ fence_close ++ rest) fence_close = false.
Proof.
  unfold match_here.
  destruct (run pattern [] [] s) as [[caps rest']|] eqn:E; [|discriminate].
  unfold pattern in E. cbn [run] in E.
  destruct (strip_prefix header_open s) as [s1|] eqn:E1; [|discriminate].
  destruct s1 as [|a s1]; [discriminate|].
  apply lazy_loop_spec in E as (x & t & -> & Hk & _).
  destruct (strip_prefix ext t) as [t1|] eqn:E2; [|discriminate].
  cbn [feed map] in Hk.
  destruct (strip_prefix fence_open t1) as [t2|] eqn:E3; [|discriminate].
  apply lazy_loop_spec in Hk as (y & u & -> & Hk & Hmin).
  cbn [feed map] in Hk.
  destruct (strip_prefix fence_close u) as [u1|] eqn:E4; [|discriminate].
  rewrite rev_group, rev_group0 in Hk. cbn [app] in Hk.
  assert (caps = [a :: x ++ ext; y]) as -> by congruence.
  assert (rest' = u1) as -> by congruence. clear Hk.
  intros Heq.
  assert (p = a :: x ++ ext) as -> by congruence.
  assert (c = y) as -> by congruence.
  assert (rest = u1) as -> by congruence. clear Heq.
  apply strip_prefix_spec in E1, E2, E3, E4. subst.
  split; [exists a, x; reflexivity|]. split.
  - cbn [app]. by rewrite <- !app_assoc.
  - intros c1 c2 Hc Hlen. subst y.
    specialize (Hmin c1 (c2 ++ fence_close ++ u1)).
    rewrite <- app_assoc in Hmin. specialize (Hmin eq_refl Hlen).
    cbn [feed map] in Hmin. unfold startswith.
    by destruct (strip_prefix fence_close (c2 ++ fence_close ++ u1)).
Qed.

Lemma match_here_complete a x c rest :
  (forall x1 x2, x = x1 ++ x2 -> length x1 < length x ->
     startswith (x2 ++ ext ++ fence_open ++ c ++ fence_close ++ rest)
                (ext ++ fence_open) = false) ->
  (forall c1 c2, c = c1 ++ c2 -> length c1 < length c ->
     startswith (c2 ++ fence_close ++ rest) fence_close = false) ->
  match_here (header_open ++ (a :: x ++ ext) ++ fence_open ++ c
              ++ fence_close ++ rest)
  = Some (a :: x ++ ext, c, rest).
Proof.
  intros Hx Hc. unfold match_here.
  assert (run pattern [] [] (header_open ++ (a :: x ++ ext) ++ fence_open ++ c
              ++ fence_close ++ rest) = Some ([a :: x ++ ext; c], rest)) as ->;
    [|done].
  unfold pattern. cbn [run]. rewrite strip_prefix_app.
  cbn [app]. rewrite <- app_assoc.
  apply lazy_loop_spec.
  exists x, (ext ++ fence_open ++ c ++ fence_close ++ rest).
  split; [done|]. split.
  - rewrite strip_prefix_app. cbn [feed map]. rewrite strip_prefix_app.
    apply lazy_loop_spec. exists c, (fence_close ++ rest).
    split; [done|]. split.
    + cbn [feed map]. rewrite strip_prefix_app.
      by rewrite rev_group, rev_group0.
    + intros c1 c2 Hs Hlen. cbn [feed map].
      destruct (app_split_shorter _ _ _ _ Hs Hlen) as (c2' & Hc' & ->).
      rewrite (startswith_false _ _ (Hc c1 c2' Hc' Hlen)). done.
  - intros x1 x2 Hs Hlen.
    destruct (app_split_shorter _ _ _ _ Hs Hlen) as (x2' & Hx' & ->).
    pose proof (startswith_false _ _ (Hx x1 x2' Hx' Hlen)) as Hno.
    rewrite strip_prefix_cat in Hno.
    destruct (strip_prefix ext _) as [t1|]; [|done].
    cbn [feed map]. by rewrite Hno.
Qed.

End MatchFacts.

Module CharFacts.
Import Re Os Extractor ReFacts MatchFacts.

(** Compare the leading characters one by one. *)
Ltac chars :=
  repeat (cbn -[Ascii.eqb] in *;
          match goal with
          | |- context [Ascii.eqb ?a ?b] =>
              destruct (Ascii.eqb_spec a b); try subst; try congruence
          | H : context [Ascii.eqb ?a ?b] |- _ =>
              destruct (Ascii.eqb_spec a b); try subst; try congruence
          end).

(** Text in front of a header cannot complete a header it does not
    contain. *)
Lemma header_no_straddle j t :
  j <> [] -> startswith j header_open = false ->
  t = [] \/ (exists t', t = header_open ++ t') ->
  startswith (j ++ t) header_open = false.
Proof.
  intros Hne Hj Ht. unfold startswith, header_open, lit in *.
  destruct j as [|a1 [|a2 [|a3 [|a4 [|a5 [|a6 j]]]]]]; [done|..];
    destruct Ht as [->|[t' ->]]; chars.
Qed.

(** A path without a newline has the extension and the opening fence
    only at its end. *)
Lemma path_no_early_fence x t :
  x <> [] -> nl ∉ x ->
  startswith (x ++ ext ++ fence_open ++ t) (ext ++ fence_open) = false.
Proof.
  intros Hne Hnl. unfold startswith, ext, fence_open, lit in *.
  destruct x as [|a1 [|a2 [|a3 [|a4 [|a5 [|a6 [|a7 [|a8 [|a9 x]]]]]]]]];
    [done|..]; chars.
  exfalso. apply Hnl. unfold nl. set_solver.
Qed.

(** Code without a closing fence has none across its end either. *)
Lemma code_no_early_fence c t :
  c <> [] -> startswith c fence_close = false ->
  startswith (c ++ fence_close ++ t) fence_close = false.
Proof.
  intros Hne Hc. unfold startswith, fence_close, lit, nl in *.
  destruct c as [|a1 [|a2 [|a3 [|a4 c]]]]; [done|..]; chars.
Qed.

End CharFacts.

Module FindallFacts.
Import Re Os Extractor ReFacts MatchFacts CharFacts.

Lemma regroup (h p f c k r : str) :
  (h ++ p ++ f ++ c ++ k) ++ r = h ++ p ++ f ++ c ++ k ++ r.
Proof. by rewrite <- !app_assoc. Qed.

Lemma section_text_app filepath code rest :
  section_text filepath code ++ rest
  = header_open ++ filepath ++ fence_open ++ code ++ fence_close ++ rest.
Proof. apply regroup. Qed.

Lemma match_here_text s p c rest :
  match_here s = Some (p, c, rest) -> s = section_text p c ++ rest.
Proof.
  intros H. apply match_here_sound in H as (_ & -> & _).
  by rewrite section_text_app.
Qed.

Lemma match_here_shrinks s p c rest :
  match_here s = Some (p, c, rest) -> length rest < length s.
Proof.
  intros H. apply match_here_sound in H as (_ & -> & _).
  rewrite !length_app. change (length header_open) with 6. lia.
Qed.

Lemma match_here_no_header s :
  startswith s header_open = false -> match_here s = None.
Proof.
  intros H. destruct (match_here s) as [[[p c] rest]|] eqn:E; [|done].
  apply match_here_sound in E as (_ & -> & _).
  unfold startswith in H. by rewrite strip_prefix_app in H.
Qed.

Lemma findall_from_S fuel s :
  findall_from (S fuel) s =
  match match_here s with
  | Some (filepath, code, rest) => (filepath, code) :: findall_from fuel rest
  | None =>
      match s with
      | [] => []
      | _ :: s' => findall_from fuel s'
      end
  end.
Proof. reflexivity. Qed.

(** More fuel than the text is long changes nothing. *)
Lemma findall_from_fuel n fuel1 fuel2 s :
  length s <= n -> length s < fuel1 -> length s < fuel2 ->
  findall_from fuel1 s = findall_from fuel2 s.
Proof.
  revert fuel1 fuel2 s. induction n as [|n IH]; intros fuel1 fuel2 s Hn H1 H2;
    (destruct fuel1 as [|fuel1]; [lia|]); (destruct fuel2 as [|fuel2]; [lia|]);
    rewrite !findall_from_S; destruct (match_here s) as [[[p c] rest]|] eqn:E.
  - apply match_here_shrinks in E. lia.
  - destruct s; [done|]. cbn [length] in Hn. lia.
  - apply match_here_shrinks in E. f_equal. apply IH; lia.
  - destruct s as [|a s]; [done|]. cbn [length] in *. apply IH; lia.
Qed.

Lemma findall_nil : findall [] = [].
Proof. reflexivity. Qed.

Lemma findall_match s p c rest :
  match_here s = Some (p, c, rest) -> findall s = (p, c) :: findall rest.
Proof.
  intros E. unfold findall at 1. rewrite findall_from_S, E. f_equal.
  apply match_here_shrinks in E.
  apply (findall_from_fuel (length rest)); lia.
Qed.

Lemma findall_skip a s :
  match_here (a :: s) = None -> findall (a :: s) = findall s.
Proof.
  intros E. unfold findall at 1. rewrite findall_from_S, E.
  apply (findall_from_fuel (length s)); cbn [length]; lia.
Qed.

(** Every match [findall] reports is a match at some position. *)
Lemma findall_sound s p c :
  (p, c) ∈ findall s ->
  exists pre t rest, s = pre ++ t /\ match_here t = Some (p, c, rest).
Proof.
  remember (length s) as n eqn:Hn. revert s Hn.
  induction n as [n IH] using lt_wf_ind. intros s -> Hin.
  destruct (match_here s) as [[[p' c'] rest]|] eqn:E.
  - rewrite (findall_match _ _ _ _ E) in Hin.
    apply elem_of_cons in Hin as [[= -> ->]|Hin].
    + exists [], s, rest. done.
    + pose proof (match_here_text _ _ _ _ E) as Hs.
      apply (IH (length rest)) in Hin as (pre & t & rest' & -> & Ht);
        [|by apply match_here_shrinks in E|done].
      exists (section_text p' c' ++ pre), t, rest'. split; [|done].
      rewrite Hs. apply app_assoc.
  - destruct s as [|a s]; [by rewrite findall_nil in Hin; inversion Hin|].
    rewrite findall_skip in Hin by done.
    apply (IH (length s)) in Hin as (pre & t & rest' & -> & Ht);
      [|cbn [length]; lia|done].
    exists (a :: pre), t, rest'. done.
Qed.

Lemma regroup_marker (pre h x e f rest : str) :
  (pre ++ h ++ x) ++ (e ++ f) ++ rest = pre ++ h ++ (x ++ e) ++ f ++ rest.
Proof. by rewrite <- !app_assoc. Qed.

Lemma findall_section content p c :
  (p, c) ∈ findall content ->
  exists pre post,
    content = pre ++ header_open ++ p ++ fence_open ++ c ++ fence_close ++ post
    /\ (exists a x, p = a :: x ++ ext)
    /\ forall c1 c2, c = c1 ++ c2 -> length c1 < length c ->
         startswith (c2 ++ fence_close ++ post) fence_close = false.
Proof.
  intros Hin. apply findall_sound in Hin as (pre & t & rest & -> & Hm).
  apply match_here_sound in Hm as (Hp & -> & Hfirst).
  exists pre, rest. done.
Qed.

(** Text without a header in front of a header, or at the end of the
    document, is skipped. *)
Lemma findall_skip_text text t :
  plain_text text ->
  t = [] \/ (exists t', t = header_open ++ t') ->
  findall (text ++ t) = findall t.
Proof.
  intros Hplain Ht. unfold plain_text in Hplain.
  induction text as [|a text IH]; [done|].
  cbn [app]. rewrite findall_skip.
  - apply IH. apply not_true_iff_false. intros H.
    apply occurs_spec in H as (u & v & ->).
    assert (occurs header_open ((a :: u) ++ header_open ++ v) = true)
      by (apply occurs_spec; eauto).
    cbn [app] in *. congruence.
  - apply match_here_no_header.
    apply (header_no_straddle (a :: text) t); [done| |done].
    apply (occurs_false header_open (a :: text) [] (a :: text)); done.
Qed.

Lemma well_formed_match filepath code rest :
  well_formed (filepath, code) ->
  match_here (section_text filepath code ++ rest) = Some (filepath, code, rest).
Proof.
  intros [(a & x & Hp & Hnl) Hcode]. simpl in Hp, Hcode. subst filepath.
  rewrite section_text_app.
  apply (match_here_complete a x code rest).
  - intros x1 x2 -> Hlen. apply path_no_early_fence.
    + intros ->. rewrite app_nil_r in Hlen. lia.
    + intros Hin. apply Hnl. set_solver.
  - intros c1 c2 -> Hlen. apply code_no_early_fence.
    + intros ->. rewrite app_nil_r in Hlen. lia.
    + eapply occurs_false; eauto.
Qed.

(** The matches of a document of well-formed sections are its sections,
    in document order. *)
Lemma findall_document parts tail :
  Forall (fun part => plain_text part.1 /\ well_formed part.2) parts ->
  plain_text tail ->
  findall (document parts tail) = map snd parts.
Proof.
  intros Hparts Htail. induction Hparts as [|[text [filepath code]] parts [Ht Hwf] _ IH].
  - cbn [document map]. rewrite <- (app_nil_r tail).
    rewrite findall_skip_text by auto. done.
  - cbn [document map fst snd] in *. rewrite findall_skip_text; [|done|].
    + rewrite (findall_match _ _ _ _ (well_formed_match _ _ _ Hwf)).
      by rewrite IH.
    + right. rewrite section_text_app. eauto.
Qed.

End FindallFacts.

(** ** The file system *)
Module OsFacts.
Import Re Os Extractor.

Lemma snoc_not_nil {A} (l : list A) x : l ++ [x] <> [].
Proof. by destruct l. Qed.

Lemma node_at_snoc fs (cur : list str) name :
  node_at fs (cur ++ [name]) = fs !! (cur ++ [name]).
Proof. unfold node_at. by destruct cur. Qed.

Lemma node_at_lookup fs (loc : list str) : loc <> [] -> node_at fs loc = fs !! loc.
Proof. by destruct loc. Qed.

Lemma kind_at_Dir fs loc : kind_at fs loc = Some KDir <-> node_at fs loc = Some Dir.
Proof. unfold kind_at. destruct (node_at fs loc) as [[]|]; split; congruence. Qed.

Lemma kind_at_File fs loc :
  kind_at fs loc = Some KFile <-> exists d, node_at fs loc = Some (File d).
Proof.
  unfold kind_at. destruct (node_at fs loc) as [[]|]; split;
    try congruence; eauto; intros [? ?]; congruence.
Qed.

Lemma extends_refl fs : extends fs fs.
Proof. by intros loc k. Qed.

Lemma extends_trans fs1 fs2 fs3 :
  extends fs1 fs2 -> extends fs2 fs3 -> extends fs1 fs3.
Proof. intros H1 H2 loc k H. by apply H2, H1. Qed.

Lemma extends_Dir fs fs' loc :
  extends fs fs' -> node_at fs loc = Some Dir -> node_at fs' loc = Some Dir.
Proof. intros H E. by apply kind_at_Dir, H, kind_at_Dir. Qed.

Lemma extends_File fs fs' loc d :
  extends fs fs' -> node_at fs loc = Some (File d) ->
  exists d', node_at fs' loc = Some (File d').
Proof. intros H E. apply kind_at_File, H, kind_at_File. eauto. Qed.

Lemma node_at_insert fs (loc loc' : list str) n :
  loc <> [] ->
  node_at (<[loc := n]> fs) loc' =
  if decide (loc = loc') then Some n else node_at fs loc'.
Proof.
  intros Hne. unfold node_at. destruct loc' as [|c loc'].
  - by rewrite decide_False.
  - apply lookup_insert.
Qed.

Lemma extends_insert_dir fs loc :
  loc <> [] -> node_at fs loc = None -> extends fs (<[loc := Dir]> fs).
Proof.
  intros Hne Hnone loc' k. unfold kind_at. rewrite node_at_insert by done.
  case_decide; [subst; by rewrite Hnone|done].
Qed.

Lemma extends_insert_file fs loc d :
  loc <> [] -> node_at fs loc <> Some Dir -> extends fs (<[loc := File d]> fs).
Proof.
  intros Hne Hnd loc' k. unfold kind_at. rewrite node_at_insert by done.
  case_decide; [subst|done].
  destruct (node_at fs loc') as [[]|]; congruence.
Qed.

(** Resolution only looks at directories, so it goes the same way in a
    file system that has them all. *)
Lemma walk_extends fs fs' cur cs loc :
  extends fs fs' -> walk fs cur cs = inr loc -> walk fs' cur cs = inr loc.
Proof.
  intros Hext. revert cur. induction cs as [|c cs IH]; intros cur; simpl; [done|].
  destruct (classify c) as [| |name]; auto.
  destruct (node_at fs (cur ++ [name])) as [[]|] eqn:E; try discriminate.
  rewrite (extends_Dir _ _ _ Hext E). auto.
Qed.

(** [mkdirs] adds directories where there was nothing, and nothing else. *)
Lemma mkdirs_changes fs cur cs fs' r :
  mkdirs fs cur cs = (fs', r) ->
  forall loc, fs' !! loc = fs !! loc
              \/ (loc <> [] /\ fs !! loc = None /\ fs' !! loc = Some Dir).
Proof.
  revert fs cur. induction cs as [|c cs IH]; intros fs cur; simpl.
  - intros [= <- <-]. auto.
  - destruct (classify c) as [| |name]; eauto.
    destruct (node_at fs (cur ++ [name])) as [[]|] eqn:E; eauto.
    + intros [= <- <-]. auto.
    + intros H loc. rewrite node_at_snoc in E.
      destruct (IH _ _ H loc) as [Hl|(Hnil & Hl1 & Hl2)].
      * rewrite Hl. destruct (decide (cur ++ [name] = loc)) as [<-|Hne].
        -- rewrite lookup_insert_eq. right. auto using snoc_not_nil.
        -- rewrite lookup_insert_ne by done. auto.
      * destruct (decide (cur ++ [name] = loc)) as [<-|Hne].
        -- by rewrite lookup_insert_eq in Hl1.
        -- rewrite lookup_insert_ne in Hl1 by done. auto.
Qed.

Lemma mkdirs_extends fs cur cs fs' r :
  mkdirs fs cur cs = (fs', r) -> extends fs fs'.
Proof.
  intros H loc k. unfold kind_at, node_at. destruct loc as [|c loc]; [done|].
  destruct (mkdirs_changes _ _ _ _ _ H (c :: loc)) as [->|(_ & -> & _)]; done.
Qed.

(** After [mkdirs] the directories are there. *)
Lemma mkdirs_walk fs cur cs fs' loc :
  mkdirs fs cur cs = (fs', inr loc) -> walk fs' cur cs = inr loc.
Proof.
  revert fs cur. induction cs as [|c cs IH]; intros fs cur; simpl.
  - by intros [= <- <-].
  - destruct (classify c) as [| |name]; eauto.
    destruct (node_at fs (cur ++ [name])) as [[]|] eqn:E; [discriminate|..].
    + intros H. rewrite (extends_Dir _ _ _ (mkdirs_extends _ _ _ _ _ H) E). eauto.
    + intros H.
      assert (node_at fs' (cur ++ [name]) = Some Dir) as ->; [|eauto].
      apply (extends_Dir _ _ _ (mkdirs_extends _ _ _ _ _ H)).
      rewrite node_at_insert by apply snoc_not_nil. by rewrite decide_True.
Qed.


(** A run of [mkdirs] repeated in a file system that has all its results
    changes nothing and ends the same way. *)
Lemma mkdirs_replay fs cur cs fs' r G :
  mkdirs fs cur cs = (fs', r) -> extends fs' G -> mkdirs G cur cs = (G, r).
Proof.
  revert fs cur. induction cs as [|c cs IH]; intros fs cur; simpl.
  - by intros [= <- <-].
  - destruct (classify c) as [| |name]; eauto.
    destruct (node_at fs (cur ++ [name])) as [[d|]|] eqn:E.
    + intros [= <- <-] Hext.
      destruct (extends_File _ _ _ _ Hext E) as [d' ->]. done.
    + intros H Hext.
      rewrite (extends_Dir _ _ _ Hext
                 (extends_Dir _ _ _ (mkdirs_extends _ _ _ _ _ H) E)). eauto.
    + intros H Hext.
      assert (node_at G (cur ++ [name]) = Some Dir) as ->; [|eauto].
      apply (extends_Dir _ _ _ Hext), (extends_Dir _ _ _ (mkdirs_extends _ _ _ _ _ H)).
      rewrite node_at_insert by apply snoc_not_nil. by rewrite decide_True.
Qed.

End OsFacts.

(** ** Paths *)
Module PathFacts.
Import Re Os Extractor OsFacts.

Lemma lstrip_with_suffix f s : exists t, s = t ++ lstrip_with f s.
Proof.
  induction s as [|c s [t IH]]; simpl.
  - by exists [].
  - destruct (f c); [|by exists []].
    exists (c :: t). simpl. by rewrite <- IH.
Qed.

Lemma lstrip_with_nil f s : lstrip_with f s = [] -> forallb f s = true.
Proof.
  induction s as [|c s IH]; simpl; [done|].
  destruct (f c); [auto|discriminate].
Qed.

Lemma rstrip_with_prefix f s : exists t, s = rstrip_with f s ++ t.
Proof.
  unfold rstrip_with. destruct (lstrip_with_suffix f (rev s)) as [t Ht].
  exists (rev t). rewrite <- rev_app_distr, <- Ht. by rewrite rev_involutive.
Qed.

Lemma rstrip_with_nil f s : rstrip_with f s = [] -> forallb f s = true.
Proof.
  unfold rstrip_with. intros H.
  assert (lstrip_with f (rev s) = []) as Hl.
  { apply (f_equal (@rev ascii)) in H. by rewrite rev_involutive in H. }
  apply lstrip_with_nil in Hl.
  apply forallb_forall. intros x Hx.
  apply (proj1 (forallb_forall _ _) Hl). by apply (proj1 (in_rev _ _)).
Qed.

Lemma startswith_cons c (s : str) :
  startswith (c :: s) [slash] = Ascii.eqb slash c.
Proof. unfold startswith. cbn [strip_prefix]. by destruct (Ascii.eqb slash c). Qed.

Lemma upto_last_sep_cons c p :
  upto_last_sep (c :: p) =
  if is_sep c || existsb is_sep p then c :: upto_last_sep p else [].
Proof. reflexivity. Qed.

(** A path and its directory name are both absolute or both relative. *)
Lemma startswith_dirname p :
  startswith (dirname p) [slash] = startswith p [slash].
Proof.
  destruct p as [|c p]; [done|].
  rewrite startswith_cons. unfold dirname. rewrite upto_last_sep_cons.
  destruct (is_sep c || existsb is_sep p) eqn:Hex.
  - destruct (forallb is_sep (c :: upto_last_sep p)) eqn:Hall.
    + by rewrite startswith_cons.
    + destruct (rstrip_with_prefix is_sep (c :: upto_last_sep p)) as [t Ht].
      destruct (rstrip_with is_sep (c :: upto_last_sep p)) as [|c' r] eqn:Hr.
      * apply rstrip_with_nil in Hr. congruence.
      * injection Ht as <- _. by rewrite startswith_cons.
  - apply orb_false_iff in Hex as [Hc _]. unfold is_sep in Hc.
    destruct (Ascii.eqb_spec c slash) as [|Hne]; [done|].
    destruct (Ascii.eqb_spec slash c); [congruence|done].
Qed.

Lemma origin_dirname p w : origin (dirname p) w = origin p w.
Proof. unfold origin. by rewrite startswith_dirname. Qed.

End PathFacts.

(** ** Programs on the world *)
Module WorldFacts.
Import Re Os Extractor OsFacts.
Import PathFacts.

Lemma world_eta w : World (files w) (cwd w) (stdout w) = w.
Proof. by destruct w. Qed.

Lemma locate_extends p w G x :
  extends (files w) (files G) -> cwd G = cwd w ->
  locate p w = inr x -> locate p G = inr x.
Proof.
  intros Hext Hcwd. unfold locate. destruct p as [|c p]; [done|].
  unfold origin. rewrite Hcwd.
  destruct (walk (files w) _ _) as [e|cur] eqn:E; [done|].
  by rewrite (walk_extends _ _ _ _ _ Hext E).
Qed.

Lemma location_extends p w G loc :
  extends (files w) (files G) -> cwd G = cwd w ->
  location p w = Some loc -> location p G = Some loc.
Proof.
  intros Hext Hcwd. unfold location.
  destruct (locate p w) as [e|x] eqn:E; [done|].
  by rewrite (locate_extends _ _ _ _ Hext Hcwd E).
Qed.

(** *** [makedirs] *)

Lemma makedirs_frame name w w1 r :
  makedirs name w = (w1, r) ->
  extends (files w) (files w1) /\ cwd w1 = cwd w /\ stdout w1 = stdout w
  /\ forall loc, files w1 !! loc = files w !! loc
                 \/ (loc <> [] /\ files w !! loc = None
                     /\ files w1 !! loc = Some Dir).
Proof.
  unfold makedirs. destruct name as [|c name].
  - intros [= <- <-]. repeat split; auto using extends_refl.
  - destruct (mkdirs _ _ _) as [fs' [e|loc]] eqn:E; intros [= <- <-];
      cbn [files cwd stdout]; repeat split; eauto using mkdirs_extends, mkdirs_changes.
Qed.

(** After [makedirs] the directory is there. *)
Lemma makedirs_isdir name w w1 :
  makedirs name w = (w1, inr tt) -> isdir name w1 = true.
Proof.
  unfold makedirs, isdir. destruct name as [|c name]; [done|].
  destruct (mkdirs _ _ _) as [fs' [e|loc]] eqn:E; intros [= <-].
  apply mkdirs_walk in E. unfold origin in *. cbn [files cwd stdout]. by rewrite E.
Qed.


Lemma makedirs_locate p w w1 :
  makedirs (dirname p) w = (w1, inr tt) -> p <> [] ->
  exists cur, locate p w1 = inr (cur, classify (basename p)).
Proof.
  intros H Hp. pose proof (makedirs_frame _ _ _ _ H) as (_ & Hcwd & _).
  apply makedirs_isdir in H. unfold isdir in H. unfold locate.
  destruct p as [|c p]; [done|].
  rewrite <- origin_dirname.
  destruct (dirname (c :: p)) as [|c' d] eqn:Hd; [done|].
  destruct (walk _ _ _) as [e|cur]; [done|]. eauto.
Qed.

Lemma makedirs_replay name w w1 r G :
  makedirs name w = (w1, r) -> extends (files w1) (files G) -> cwd G = cwd w ->
  makedirs name G = (G, r).
Proof.
  unfold makedirs. destruct name as [|c name].
  - by intros [= <- <-].
  - intros H Hext Hcwd. unfold origin in *. rewrite Hcwd.
    destruct (mkdirs (files w) _ _) as [fs' r'] eqn:E.
    assert (files w1 = fs' /\ r = match r' with inl e => inl e | inr _ => inr tt end)
      as [<- ->] by (destruct r'; by injection H as <- <-).
    rewrite (mkdirs_replay _ _ _ _ _ _ E Hext).
    rewrite <- Hcwd, world_eta. by destruct r'.
Qed.

(** *** [write_file] *)

Lemma write_file_inv p d w w' r :
  write_file p d w = (w', r) ->
  (r = inr tt /\ exists cur name,
      locate p w = inr (cur, Down name)
      /\ node_at (files w) (cur ++ [name]) <> Some Dir
      /\ w' = World (<[cur ++ [name] := File d]> (files w)) (cwd w) (stdout w))
  \/ (exists e, r = inl e /\ w' = w).
Proof.
  unfold write_file. destruct (locate p w) as [e|[cur [| |name]]] eqn:E;
    try (intros [= <- <-]; right; eauto; fail).
  destruct (node_at (files w) (cur ++ [name])) as [[dd|]|] eqn:En;
    intros [= <- <-]; [left|right; eauto|left];
    (split; [done|]); exists cur, name; rewrite En; done.
Qed.

Lemma write_file_frame p d w w' r :
  write_file p d w = (w', r) ->
  extends (files w) (files w') /\ cwd w' = cwd w /\ stdout w' = stdout w.
Proof.
  intros H. apply write_file_inv in H as [(-> & cur & name & Hl & Hn & ->)|(e & -> & ->)].
  - simpl. repeat split; auto.
    apply extends_insert_file; [apply snoc_not_nil|done].
  - repeat split; auto using extends_refl.
Qed.

(** A written file is where its path leads and holds what was written. *)
Lemma write_file_contents p d w w' :
  write_file p d w = (w', inr tt) ->
  exists loc, location p w = Some loc /\ location p w' = Some loc
              /\ files w' = <[loc := File d]> (files w)
              /\ node_at (files w) loc <> Some Dir
              /\ contents p w' = inr d.
Proof.
  intros H. pose proof (write_file_frame _ _ _ _ _ H) as (Hext & Hcwd & _).
  apply write_file_inv in H as [(_ & cur & name & Hl & Hn & ->)|(e & [=] & _)].
  exists (cur ++ [name]).
  assert (location p w = Some (cur ++ [name])) as Hloc
    by (unfold location; by rewrite Hl).
  pose proof (locate_extends _ _ _ _ Hext Hcwd Hl) as Hl'.
  split; [done|]. split; [unfold location; by rewrite Hl'|].
  split; [done|]. split; [done|].
  unfold contents. rewrite Hl'. simpl.
  rewrite node_at_snoc, lookup_insert_eq. done.
Qed.

End WorldFacts.

(** ** The loop of the extractor *)
Module RunFacts.
Import Re Os Extractor OsFacts PathFacts WorldFacts.

Lemma extract_one_eq p c w :
  extract_one (p, c) w =
  match makedirs (dirname (destination p)) w with
  | (w1, inl e) => (w1, inl e)
  | (w1, inr _) =>
      match write_file (destination p) c w1 with
      | (w2, inl e) => (w2, inl e)
      | (w2, inr _) => (say [written_line p] w2, inr tt)
      end
  end.
Proof.
  unfold extract_one, bind, print, destination, written_line.
  destruct (makedirs _ w) as [w1 [e|[]]]; [done|].
  by destruct (write_file _ c w1) as [w2 [e|[]]].
Qed.

Lemma contents_location p w loc d :
  location p w = Some loc -> files w !! loc = Some (File d) ->
  contents p w = inr d.
Proof.
  unfold location, contents.
  destruct (locate p w) as [e|[cur [| |name]]]; try done.
  intros [= <-] H. by rewrite node_at_snoc, H.
Qed.

Lemma location_not_nil p w loc : location p w = Some loc -> loc <> [].
Proof.
  unfold location. destruct (locate p w) as [e|[cur [| |name]]]; try done.
  intros [= <-]. apply snoc_not_nil.
Qed.

(** What a round of the loop that raises nothing has done. *)
Lemma extract_one_ok p c w w' :
  extract_one (p, c) w = (w', inr tt) ->
  exists w1 loc,
    makedirs (dirname (destination p)) w = (w1, inr tt)
    /\ isdir (dirname (destination p)) w1 = true
    /\ write_file (destination p) c w1
       = (World (files w') (cwd w') (stdout w), inr tt)
    /\ location (destination p) w' = Some loc
    /\ files w' = <[loc := File c]> (files w1)
    /\ contents (destination p) w' = inr c
    /\ cwd w' = cwd w
    /\ stdout w' = stdout w ++ [written_line p].
Proof.
  rewrite extract_one_eq.
  destruct (makedirs _ w) as [w1 [e|[]]] eqn:Hmk; [done|].
  destruct (write_file _ c w1) as [w2 [e|[]]] eqn:Hwr; [done|].
  intros [= <-].
  pose proof (makedirs_frame _ _ _ _ Hmk) as (_ & Hcwd1 & Hout1 & _).
  pose proof (write_file_frame _ _ _ _ _ Hwr) as (_ & Hcwd2 & Hout2).
  destruct (write_file_contents _ _ _ _ Hwr) as (loc & _ & Hloc & Hfiles & _ & Hc).
  exists w1, loc. unfold say; cbn [files cwd stdout].
  split; [done|]. split; [by apply makedirs_isdir in Hmk|].
  split; [by rewrite <- Hout1, <- Hout2, world_eta|].
  split; [exact Hloc|]. split; [done|]. split; [exact Hc|].
  split; congruence.
Qed.

(** The loop never removes a node nor turns a file into a directory. *)
Lemma extract_one_frame m w w' r :
  extract_one m w = (w', r) ->
  extends (files w) (files w') /\ cwd w' = cwd w
  /\ exists lines, stdout w' = stdout w ++ lines.
Proof.
  destruct m as [p c]. rewrite extract_one_eq.
  destruct (makedirs _ w) as [w1 [e|[]]] eqn:Hmk.
  - intros [= <- <-]. apply makedirs_frame in Hmk as (? & ? & Hout & _).
    repeat split; auto. exists []. by rewrite app_nil_r.
  - apply makedirs_frame in Hmk as (Hext1 & Hcwd1 & Hout1 & _).
    destruct (write_file _ c w1) as [w2 [e|[]]] eqn:Hwr;
      apply write_file_frame in Hwr as (Hext2 & Hcwd2 & Hout2);
      intros [= <- <-]; unfold say; cbn [files cwd stdout].
    + split; [eauto using extends_trans|]. split; [congruence|].
      exists []. rewrite app_nil_r. congruence.
    + split; [eauto using extends_trans|]. split; [congruence|].
      exists [written_line p]. congruence.
Qed.

Lemma for_each_cons_inv {A} (f : A -> M unit) m ms w w' r :
  for_each (m :: ms) f w = (w', r) ->
  exists w1 r1,
    f m w = (w1, r1)
    /\ match r1 with
       | inl e => w' = w1 /\ r = inl e
       | inr _ => for_each ms f w1 = (w', r)
       end.
Proof.
  cbn [for_each]. unfold bind. destruct (f m w) as [w1 [e|[]]] eqn:E.
  - intros [= <- <-]. exists w1, (inl e). auto.
  - intros H. exists w1, (inr tt). auto.
Qed.

Lemma for_each_frame ms w w' r :
  for_each ms extract_one w = (w', r) ->
  extends (files w) (files w') /\ cwd w' = cwd w
  /\ exists lines, stdout w' = stdout w ++ lines.
Proof.
  revert w. induction ms as [|m ms IH]; intros w.
  - intros [= <- <-]. repeat split; auto using extends_refl.
    exists []. by rewrite app_nil_r.
  - intros H. apply for_each_cons_inv in H as (w1 & r1 & Hm & H).
    apply extract_one_frame in Hm as (Hext & Hcwd & l1 & Hout).
    destruct r1 as [e|[]].
    + destruct H as [-> ->]. eauto.
    + apply IH in H as (Hext' & Hcwd' & l2 & Hout').
      split; [eauto using extends_trans|]. split; [congruence|].
      exists (l1 ++ l2). rewrite Hout', Hout. by rewrite app_assoc.
Qed.

(** A run that raises nothing reports every match, in order. *)
Lemma for_each_stdout ms w w' :
  for_each ms extract_one w = (w', inr tt) ->
  stdout w' = stdout w ++ map (fun m => written_line m.1) ms.
Proof.
  revert w. induction ms as [|[p c] ms IH]; intros w.
  - intros [= <-]. cbn [map]. by rewrite app_nil_r.
  - intros H. apply for_each_cons_inv in H as (w1 & [e|[]] & Hm & H).
    + by destruct H.
    + apply extract_one_ok in Hm as (_ & _ & _ & _ & _ & _ & _ & _ & _ & Hout).
      rewrite (IH _ H), Hout. cbn [map fst]. by rewrite <- app_assoc.
Qed.

(** A file stays as it is while no later match is written to it. *)
Lemma for_each_keeps_file ms w w' loc d :
  for_each ms extract_one w = (w', inr tt) ->
  files w !! loc = Some (File d) ->
  (forall m, m ∈ ms -> location (destination m.1) w' <> Some loc) ->
  files w' !! loc = Some (File d).
Proof.
  revert w. induction ms as [|[p c] ms IH]; intros w.
  - by intros [= <-].
  - intros H Hfile Hother.
    apply for_each_cons_inv in H as (w1 & [e|[]] & Hm & H); [by destruct H|].
    apply (IH w1 H); [|intros m Hin; apply Hother, elem_of_cons; by right].
    pose proof (for_each_frame _ _ _ _ H) as (Hext & Hcwd & _).
    apply extract_one_ok in Hm
      as (wa & loc' & Hmk & _ & _ & Hloc & Hfiles & _).
    assert (loc' <> loc) as Hne.
    { intros ->. apply (Hother (p, c)); [apply elem_of_cons; by left|].
      by apply (location_extends _ _ _ _ Hext Hcwd). }
    rewrite Hfiles, lookup_insert_ne by done.
    apply makedirs_frame in Hmk as (_ & _ & _ & Hch).
    destruct (Hch loc) as [->|(_ & Hnone & _)]; congruence.
Qed.

(** The file of a match holds its code at the end of the run, unless a
    later match went to the same file. *)
Lemma for_each_contents l1 p c l2 w w' :
  for_each (l1 ++ (p, c) :: l2) extract_one w = (w', inr tt) ->
  (forall m, m ∈ l2 ->
     location (destination m.1) w' <> location (destination p) w') ->
  contents (destination p) w' = inr c.
Proof.
  revert w. induction l1 as [|m l1 IH]; intros w H Hother.
  - cbn [app] in H.
    apply for_each_cons_inv in H as (w1 & [e|[]] & Hm & H); [by destruct H|].
    pose proof (for_each_frame _ _ _ _ H) as (Hext & Hcwd & _).
    apply extract_one_ok in Hm as (wa & loc & _ & _ & _ & Hloc & Hfiles & _).
    pose proof (location_extends _ _ _ _ Hext Hcwd Hloc) as Hloc'.
    apply (contents_location _ _ loc); [done|].
    apply (for_each_keeps_file _ _ _ _ _ H).
    + by rewrite Hfiles, lookup_insert_eq.
    + intros m Hin. rewrite <- Hloc'. by apply Hother.
  - cbn [app] in H.
    apply for_each_cons_inv in H as (w1 & [e|[]] & Hm & H); [by destruct H|].
    by apply (IH w1).
Qed.

(** Every file there is after the run was there before or is the file
    of a match. *)
Lemma for_each_only_writes ms w w' r loc d :
  for_each ms extract_one w = (w', r) ->
  files w' !! loc = Some (File d) ->
  files w !! loc = Some (File d)
  \/ exists m, m ∈ ms /\ location (destination m.1) w' = Some loc /\ d = m.2.
Proof.
  revert w. induction ms as [|[p c] ms IH]; intros w.
  - intros [= <- <-]. auto.
  - intros H Hfile.
    apply for_each_cons_inv in H as (w1 & r1 & Hm & H).
    assert (files w1 !! loc = Some (File d) ->
            files w !! loc = Some (File d)
            \/ (location (destination p) w1 = Some loc /\ d = c)) as Hstep.
    { clear H. rewrite extract_one_eq in Hm.
      destruct (makedirs _ w) as [wa [e|[]]] eqn:Hmk.
      - injection Hm as <- <-. intros Hf. left.
        apply makedirs_frame in Hmk as (_ & _ & _ & Hch).
        destruct (Hch loc) as [<-|(_ & _ & ?)]; congruence.
      - apply makedirs_frame in Hmk as (_ & _ & _ & Hch).
        destruct (write_file _ c wa) as [wb [e|[]]] eqn:Hwr.
        + injection Hm as <- <-. intros Hf. left.
          apply write_file_inv in Hwr as [([=] & _)|(e' & _ & ->)].
          destruct (Hch loc) as [<-|(_ & _ & ?)]; congruence.
        + injection Hm as <- <-.
          destruct (write_file_contents _ _ _ _ Hwr)
            as (loc' & _ & Hloc & Hfiles & _).
          intros Hf. change (files wb !! loc = Some (File d)) in Hf.
          rewrite Hfiles in Hf.
          destruct (decide (loc' = loc)) as [->|Hne].
          * rewrite lookup_insert_eq in Hf. right. split; [exact Hloc|congruence].
          * rewrite lookup_insert_ne in Hf by done. left.
            destruct (Hch loc) as [<-|(_ & _ & ?)]; congruence. }
    destruct r1 as [e|[]].
    + destruct H as [-> ->].
      destruct (Hstep Hfile) as [?|[Hloc Hd]]; [auto|].
      right. exists (p, c). split; [apply elem_of_cons; by left|done].
    + pose proof (for_each_frame _ _ _ _ H) as (Hext & Hcwd & _).
      destruct (IH _ H Hfile) as [Hf|(m & Hin & Hloc & ->)].
      * destruct (Hstep Hf) as [?|[Hloc Hd]]; [auto|].
        right. exists (p, c). split; [apply elem_of_cons; by left|].
        split; [|done].
        by apply (location_extends _ _ _ _ Hext Hcwd).
      * right. exists m. split; [apply elem_of_cons; by right|done].
Qed.

End RunFacts.

(** ** Running the loop again *)
Module ReplayFacts.
Import Re Os Extractor OsFacts PathFacts WorldFacts RunFacts.

Lemma tracks_trans w w1 w' G G1 G' :
  tracks w w1 G G1 -> tracks w1 w' G1 G' -> tracks w w' G G'.
Proof.
  intros H1 H2 loc. destruct (H2 loc) as [[Ha Hb]|Hc]; [|by right].
  destruct (H1 loc) as [[Hd He]|Hf].
  - left. split; congruence.
  - right. congruence.
Qed.

Lemma tracks_makedirs name w w1 r G :
  makedirs name w = (w1, r) -> extends (files w1) (files G) -> tracks w w1 G G.
Proof.
  intros Hmk Hext loc.
  apply makedirs_frame in Hmk as (_ & _ & _ & Hch).
  destruct (Hch loc) as [Heq|(Hnil & _ & Hdir)]; [by left|].
  right. rewrite Hdir. rewrite <- !node_at_lookup in * by done.
  by apply (extends_Dir _ _ _ Hext).
Qed.

(** One round of the loop, run again where its results are present. *)
Lemma extract_one_replay m w w' r G :
  extract_one m w = (w', r) ->
  extends (files w') (files G) -> cwd G = cwd w ->
  exists G',
    extract_one m G = (G', r)
    /\ cwd G' = cwd G
    /\ extends (files G) (files G')
    /\ tracks w w' G G'
    /\ exists lines, stdout w' = stdout w ++ lines
                     /\ stdout G' = stdout G ++ lines.
Proof.
  destruct m as [p c]. rewrite !extract_one_eq.
  destruct (makedirs _ w) as [w1 [e|[]]] eqn:Hmk.
  - intros [= <- <-] Hext Hcwd.
    rewrite (makedirs_replay _ _ _ _ _ Hmk Hext Hcwd).
    exists G. split; [done|]. split; [done|]. split; [apply extends_refl|].
    split; [by apply (tracks_makedirs _ _ _ _ _ Hmk)|].
    exists []. apply makedirs_frame in Hmk as (_ & _ & -> & _).
    by rewrite !app_nil_r.
  - pose proof (makedirs_frame _ _ _ _ Hmk) as (Hext1 & Hcwd1 & Hout1 & _).
    destruct (write_file _ c w1) as [w2 r2] eqn:Hwr.
    pose proof (write_file_frame _ _ _ _ _ Hwr) as (Hext2 & Hcwd2 & Hout2).
    intros Hrun Hext Hcwd.
    assert (extends (files w2) (files G)) as HextG.
    { destruct r2 as [e|[]]; injection Hrun as <- <-; exact Hext. }
    assert (extends (files w1) (files G)) as Hext1G
      by eauto using extends_trans.
    assert (cwd G = cwd w1) as HcwdG by congruence.
    rewrite (makedirs_replay _ _ _ _ _ Hmk Hext1G Hcwd).
    pose proof (tracks_makedirs _ _ _ _ _ Hmk Hext1G) as Htr1.
    destruct (write_file_inv _ _ _ _ _ Hwr)
      as [(-> & cur & name & Hloc & Hnd & ->)|(e & -> & ->)].
    + (* the file was written *)
      injection Hrun as <- <-.
      pose proof (locate_extends _ _ _ _ Hext1G HcwdG Hloc) as HlocG.
      assert (exists d', node_at (files G) (cur ++ [name]) = Some (File d'))
        as [d' HG].
      { apply (extends_File _ _ _ c HextG). cbn [files].
        rewrite node_at_snoc. apply lookup_insert_eq. }
      unfold write_file at 1. rewrite HlocG, HG.
      eexists. split; [reflexivity|]. unfold say; cbn [files cwd stdout].
      split; [done|]. split.
      { apply extends_insert_file; [apply snoc_not_nil|congruence]. }
      split.
      { intros loc. destruct (decide (cur ++ [name] = loc)) as [<-|Hne].
        - right. cbn [files]. by rewrite !lookup_insert_eq.
        - cbn [files]. rewrite !lookup_insert_ne by done. apply Htr1. }
      exists [written_line p]. split; congruence.
    + (* the file could not be written *)
      injection Hrun as <- <-.
      assert (write_file (destination p) c G = (G, inl e)) as ->.
      { unfold write_file in Hwr |- *.
        destruct (locate (destination p) w1) as [e'|[cur mv]] eqn:Hloc.
        - destruct (destination p) as [|a d] eqn:Hd.
          + unfold locate. by injection Hwr as <-.
          + rewrite <- Hd in *.
            destruct (makedirs_locate _ _ _ Hmk) as [cur Hcur]; [by rewrite Hd|].
            congruence.
        - rewrite (locate_extends _ _ _ _ Hext1G HcwdG Hloc).
          destruct mv as [| |name]; try (by injection Hwr as <-).
          destruct (node_at (files w1) (cur ++ [name])) as [[d'|]|] eqn:En;
            try discriminate.
          rewrite (extends_Dir _ _ _ Hext1G En). by injection Hwr as <-. }
      exists G. split; [done|]. split; [done|]. split; [apply extends_refl|].
      split; [done|]. exists []. rewrite !app_nil_r. split; congruence.
Qed.

(** The whole loop, run again where its results are present: the same
    outcome, the same output, and a file system that agrees with the
    first run's wherever either run touched it. *)
Lemma for_each_replay ms w w' r G :
  for_each ms extract_one w = (w', r) ->
  extends (files w') (files G) -> cwd G = cwd w ->
  exists G',
    for_each ms extract_one G = (G', r)
    /\ cwd G' = cwd G
    /\ extends (files G) (files G')
    /\ tracks w w' G G'
    /\ exists lines, stdout w' = stdout w ++ lines
                     /\ stdout G' = stdout G ++ lines.
Proof.
  revert w G. induction ms as [|m ms IH]; intros w G.
  - intros [= <- <-] _ _. exists G. split; [done|]. split; [done|].
    split; [apply extends_refl|]. split; [intros loc; by left|].
    exists []. by rewrite !app_nil_r.
  - intros H Hext Hcwd.
    apply for_each_cons_inv in H as (w1 & r1 & Hm & H).
    destruct r1 as [e|[]].
    + destruct H as [-> ->].
      destruct (extract_one_replay _ _ _ _ _ Hm Hext Hcwd)
        as (G1 & HG & ? & ? & ? & ?).
      exists G1. split; [|done]. cbn [for_each]. unfold bind. by rewrite HG.
    + pose proof (for_each_frame _ _ _ _ H) as (Hext' & Hcwd' & _).
      pose proof (extract_one_frame _ _ _ _ Hm) as (_ & Hcwd1 & _).
      destruct (extract_one_replay m w w1 (inr tt) G Hm)
        as (G1 & HG & HcG1 & HeG1 & Htr1 & l1 & Ho1 & Ho1'); [|done|].
      { eauto using extends_trans. }
      destruct (IH w1 G1 H) as (G' & HG' & HcG' & HeG' & Htr' & l2 & Ho2 & Ho2').
      { eauto using extends_trans. }
      { congruence. }
      exists G'. split; [cbn [for_each]; unfold bind; by rewrite HG|].
      split; [congruence|]. split; [eauto using extends_trans|].
      split; [eauto using tracks_trans|].
      exists (l1 ++ l2). rewrite Ho2, Ho2', Ho1, Ho1'. by rewrite !app_assoc.
Qed.

(** The loop run a second time, on the file system the first run left. *)
Lemma for_each_rerun ms w w1 r G :
  for_each ms extract_one w = (w1, r) ->
  files G = files w1 -> cwd G = cwd w1 ->
  exists G',
    for_each ms extract_one G = (G', r)
    /\ files G' = files w1
    /\ cwd G' = cwd w1
    /\ exists lines, stdout w1 = stdout w ++ lines
                     /\ stdout G' = stdout G ++ lines.
Proof.
  intros Hrun Hfiles HcwdG.
  pose proof (for_each_frame _ _ _ _ Hrun) as (_ & Hcwd & _).
  destruct (for_each_replay _ _ _ _ G Hrun) as (G' & Hrun2 & Hcwd2 & _ & Htracks & Hlines).
  { rewrite Hfiles. apply extends_refl. }
  { congruence. }
  exists G'. split; [done|]. split; [|split; [congruence|done]].
  apply map_eq. intros loc. destruct (Htracks loc) as [[? _]|?]; congruence.
Qed.

End ReplayFacts.

(** ** Destinations *)
Module DestinationFacts.
Import Re Os Extractor ReFacts MatchFacts CharFacts FindallFacts.
Import OsFacts PathFacts WorldFacts RunFacts ReplayFacts.

(** [lstrip] takes a run of the characters away from the front. *)
Lemma lstrip_with_spec f s :
  exists a, s = a ++ lstrip_with f s /\ forallb f a = true
            /\ match lstrip_with f s with
               | c :: _ => f c = false
               | [] => True
               end.
Proof.
  induction s as [|c s (a & Hs & Ha & Hc)]; cbn [lstrip_with].
  - by exists [].
  - destruct (f c) eqn:E.
    + exists (c :: a). cbn [app forallb]. rewrite E, Ha, <- Hs. done.
    + by exists [].
Qed.

Lemma forallb_rev (f : ascii -> bool) s :
  forallb f s = true -> forallb f (rev s) = true.
Proof.
  intros H. apply forallb_forall. intros x Hx.
  apply (proj1 (forallb_forall _ _) H). by apply (proj2 (in_rev _ _)).
Qed.



Lemma lstrip_with_keeps f (s t : str) c :
  f c = false -> exists y, lstrip_with f (s ++ c :: t) = y ++ c :: t.
Proof.
  intros Hc. induction s as [|a s [y IH]]; cbn [app lstrip_with].
  - rewrite Hc. by exists [].
  - destruct (f a); [eauto|]. by exists (a :: s).
Qed.

Lemma rstrip_with_keeps f (s : str) c :
  f c = false -> rstrip_with f (s ++ [c]) = s ++ [c].
Proof.
  intros Hc. unfold rstrip_with. rewrite rev_app_distr. cbn [rev app lstrip_with].
  rewrite Hc. cbn [rev]. by rewrite rev_involutive.
Qed.

(** A path that ends in [.swift] still does after [strip]. *)
Lemma strip_keeps_ext a x : exists y, strip (a :: x ++ ext) = y ++ ext.
Proof.
  unfold strip.
  destruct (lstrip_with_keeps isspace (a :: x) (lit "swift") "."%char eq_refl)
    as [y Hy].
  change (((a :: x) ++ "."%char :: lit "swift")) with (a :: x ++ ext) in Hy.
  rewrite Hy. exists y.
  change ("."%char :: lit "swift") with (lit ".swif" ++ ["t"%char]).
  change ext with (lit ".swif" ++ ["t"%char]).
  rewrite !app_assoc. apply rstrip_with_keeps. reflexivity.
Qed.

Lemma join_base q :
  join base q = if startswith q [slash] then q else base ++ [slash] ++ q.
Proof. unfold join. by destruct (startswith q [slash]). Qed.


Lemma destination_ends_with q : exists y, join base q = y ++ q.
Proof.
  rewrite join_base. destruct (startswith q [slash]).
  - by exists [].
  - exists (base ++ [slash]). by rewrite <- app_assoc.
Qed.

Lemma destination_ext a x : exists y, destination (a :: x ++ ext) = y ++ ext.
Proof.
  unfold destination. destruct (strip_keeps_ext a x) as [y ->].
  destruct (destination_ends_with (y ++ ext)) as [z ->].
  exists (z ++ y). by rewrite app_assoc.
Qed.


(** *** Creating plain directories on a clear way *)

Lemma mkdirs_clear fs cur cs name :
  Forall (fun c => classify c = Down c) cs ->
  (forall n, kind_at fs (cur ++ take n cs) <> Some KFile) ->
  exists fs',
    mkdirs fs cur cs = (fs', inr (cur ++ cs))
    /\ fs' !! (cur ++ cs ++ [name]) = fs !! (cur ++ cs ++ [name]).
Proof.
  intros Hcs. revert fs cur.
  induction Hcs as [|c cs Hc _ IH]; intros fs cur Hway; cbn [mkdirs].
  - exists fs. by rewrite app_nil_r.
  - rewrite Hc.
    assert (forall l : list str, cur ++ c :: l = (cur ++ [c]) ++ l) as Hre
      by (intros l; by rewrite <- app_assoc).
    destruct (node_at fs (cur ++ [c])) as [[d|]|] eqn:E.
    + exfalso. apply (Hway 1). cbn [take]. apply kind_at_File. eauto.
    + destruct (IH fs (cur ++ [c])) as (fs' & Hmk & Hsame).
      { intros n. rewrite <- Hre. apply (Hway (S n)). }
      exists fs'. cbn [app]. by rewrite (Hre cs), (Hre (cs ++ [name])).
    + destruct (IH (<[cur ++ [c] := Dir]> fs) (cur ++ [c])) as (fs' & Hmk & Hsame).
      { intros n. unfold kind_at. rewrite node_at_insert by apply snoc_not_nil.
        case_decide; [done|]. rewrite <- Hre. apply (Hway (S n)). }
      exists fs'. cbn [app]. rewrite (Hre cs), (Hre (cs ++ [name])).
      split; [done|]. rewrite Hsame.
      apply lookup_insert_ne. intros Heq.
      apply (f_equal length) in Heq. rewrite !length_app in Heq.
      cbn [length] in Heq. lia.
Qed.

End DestinationFacts.

(** ** The extractor *)
Module ExtractorFacts.
Import Re Os Extractor ReFacts MatchFacts CharFacts FindallFacts.
Import OsFacts PathFacts WorldFacts RunFacts ReplayFacts DestinationFacts.

Lemma read_text_sample doc :
  universal_newlines doc = doc ->
  read_text input_name (sample_world doc) = (sample_world doc, inr doc).
Proof.
  intros H. unfold read_text.
  assert (contents input_name (sample_world doc) = inr doc) as ->
    by (vm_compute; reflexivity).
  by rewrite H.
Qed.

Lemma findall_swift_doc : findall swift_doc = [(lit "a/b/c.swift", hello_world)].
Proof. vm_compute. reflexivity. Qed.

Lemma findall_txt_doc : findall txt_doc = [].
Proof. vm_compute. reflexivity. Qed.

Lemma extract_swift_files_eq input content w :
  read_text input w = (w, inr content) ->
  extract_swift_files input w = for_each (findall content) extract_one w.
Proof. intros H. unfold extract_swift_files, bind. by rewrite H. Qed.

(** C1 as stated fails: for the section with the path [a/b/c.txt] the
    extractor finds no match, writes nothing and leaves no file at
    [<base>/a/b/c.txt]. *)
Lemma extractor_txt_not_extracted :
  read_text input_name (sample_world txt_doc) = (sample_world txt_doc, inr txt_doc)
  /\ extract_swift_files input_name (sample_world txt_doc)
     = (sample_world txt_doc, inr tt)
  /\ contents (base ++ lit "/a/b/c.txt") (sample_world txt_doc)
     = inl FileNotFoundError.
Proof. vm_compute. auto. Qed.

Lemma makedirs_absolute name w :
  startswith name [slash] = true ->
  makedirs name w =
  match mkdirs (files w) [] (split_sep name) with
  | (fs', inl e) => (World fs' (cwd w) (stdout w), inl e)
  | (fs', inr _) => (World fs' (cwd w) (stdout w), inr tt)
  end.
Proof.
  intros H. unfold makedirs, origin. rewrite H. by destruct name.
Qed.

Lemma locate_absolute p w :
  startswith p [slash] = true ->
  locate p w =
  match walk (files w) [] (split_sep (dirname p)) with
  | inl e => inl e
  | inr cur => inr (cur, classify (basename p))
  end.
Proof.
  intros H. unfold locate, origin. rewrite H. by destruct p.
Qed.

Lemma swift_dir_plain : Forall (fun c => classify c = Down c) swift_dir.
Proof. repeat constructor. Qed.

(** The round of the loop for [a/b/c.swift], on a clear way. *)
Lemma extract_one_swift code w :
  clear_way (files w) swift_dir (lit "c.swift") ->
  exists w', extract_one (lit "a/b/c.swift", code) w = (w', inr tt).
Proof.
  intros [Hway Htarget].
  destruct (mkdirs_clear (files w) [] swift_dir (lit "c.swift") swift_dir_plain Hway)
    as (fs' & Hmk & Hsame).
  cbn [app] in Hmk, Hsame.
  rewrite extract_one_eq.
  assert (destination (lit "a/b/c.swift") = base ++ lit "/a/b/c.swift") as ->
    by (vm_compute; reflexivity).
  assert (dirname (base ++ lit "/a/b/c.swift") = base ++ lit "/a/b") as Hdir
    by (vm_compute; reflexivity).
  assert (split_sep (base ++ lit "/a/b") = [] :: swift_dir) as Hsplit
    by (vm_compute; reflexivity).
  rewrite Hdir, makedirs_absolute, Hsplit by reflexivity.
  cbn [mkdirs classify]. rewrite Hmk.
  unfold write_file. rewrite locate_absolute by reflexivity.
  cbn [files]. rewrite Hdir, Hsplit. cbn [walk classify].
  rewrite (mkdirs_walk _ _ _ _ _ Hmk).
  assert (classify (basename (base ++ lit "/a/b/c.swift")) = Down (lit "c.swift"))
    as -> by (vm_compute; reflexivity).
  rewrite node_at_snoc, Hsame.
  assert (files w !! (swift_dir ++ [lit "c.swift"]) <> Some Dir) as Hnd.
  { intros H. apply Htarget. unfold kind_at. by rewrite node_at_snoc, H. }
  destruct (files w !! (swift_dir ++ [lit "c.swift"])) as [[d|]|]; [|done|]; eauto.
Qed.

(** C1, amended: for the document whose section names [a/b/c.swift] and
    holds [hello\nworld], on a clear way, the extractor ends normally,
    reports the file, and the file at [<base>/a/b/c.swift] holds exactly
    [hello\nworld]. *)
Theorem extractor_round_trip input w :
  read_text input w = (w, inr swift_doc) ->
  clear_way (files w) swift_dir (lit "c.swift") ->
  exists w',
    extract_swift_files input w = (w', inr tt)
    /\ contents (base ++ lit "/a/b/c.swift") w' = inr hello_world
    /\ stdout w' = stdout w ++ [lit "Written: a/b/c.swift"].
Proof.
  intros Hread Hway.
  rewrite (extract_swift_files_eq _ _ _ Hread), findall_swift_doc.
  destruct (extract_one_swift hello_world w Hway) as [w' Hone].
  exists w'. cbn [for_each]. unfold bind. rewrite Hone. split; [done|].
  apply extract_one_ok in Hone as (_ & _ & _ & _ & _ & _ & _ & Hc & _ & Hout).
  split; [exact Hc|exact Hout].
Qed.

Lemma clear_way_sample doc : clear_way (files (sample_world doc)) swift_dir (lit "c.swift").
Proof.
  split.
  - intros n. do 7 (destruct n as [|n]; [by vm_compute|]). by vm_compute.
  - by vm_compute.
Qed.

Lemma extractor_round_trip_witness :
  exists w',
    extract_swift_files input_name (sample_world swift_doc) = (w', inr tt)
    /\ contents (base ++ lit "/a/b/c.swift") w' = inr hello_world
    /\ stdout w' = [lit "Written: a/b/c.swift"].
Proof.
  apply (extractor_round_trip input_name (sample_world swift_doc)).
  - apply read_text_sample. reflexivity.
  - apply clear_way_sample.
Defined.

(** C2 as stated fails: two well-formed sections that name the same
    path leave one file, and the code of the first is in no file. *)
Lemma extractor_same_path_one_file :
  Forall (fun part => plain_text part.1 /\ well_formed part.2) twice_parts
  /\ length twice_parts = 2
  /\ let w := sample_world (document twice_parts []) in
     let w' := (extract_swift_files input_name w).1 in
     read_text input_name w = (w, inr (document twice_parts []))
     /\ (extract_swift_files input_name w).2 = inr tt
     /\ file_count w' = file_count w + 1
     /\ contents (destination (lit "a.swift")) w' = inr (lit "B").
Proof.
  split; [|by vm_compute].
  repeat constructor; try (by vm_compute);
    exists "a"%char, []; (split; [reflexivity|]);
    intros H; apply list_elem_of_singleton in H; discriminate H.
Qed.

(** C2, amended: for a document of well-formed sections in the
    extractor's format, the matches are the sections in document order;
    a run that ends normally reports one written file per section, the
    file of a section holds its code unless a later section went to the
    same file, and every file there is afterwards was there before or is
    the file of a section and holds that section's code. *)
Theorem extractor_multiplicity parts tail input w w' :
  Forall (fun part => plain_text part.1 /\ well_formed part.2) parts ->
  plain_text tail ->
  read_text input w = (w, inr (document parts tail)) ->
  extract_swift_files input w = (w', inr tt) ->
  findall (document parts tail) = map snd parts
  /\ stdout w' = stdout w ++ map (fun m => written_line m.1) (map snd parts)
  /\ (forall l1 p c l2,
        map snd parts = l1 ++ (p, c) :: l2 ->
        (forall m, m ∈ l2 ->
           location (destination m.1) w' <> location (destination p) w') ->
        contents (destination p) w' = inr c)
  /\ (forall loc d,
        files w' !! loc = Some (File d) ->
        files w !! loc = Some (File d)
        \/ exists m, m ∈ map snd parts
                     /\ location (destination m.1) w' = Some loc /\ d = m.2).
Proof.
  intros Hparts Htail Hread Hrun.
  rewrite (extract_swift_files_eq _ _ _ Hread) in Hrun.
  rewrite (findall_document _ _ Hparts Htail) in *.
  split; [done|]. split; [by apply for_each_stdout|]. split.
  - intros l1 p c l2 Hsplit Hother. rewrite Hsplit in Hrun.
    by apply (for_each_contents l1 p c l2 w w').
  - intros loc d. apply (for_each_only_writes _ _ _ _ _ _ Hrun).
Qed.

Lemma sample_run_ok :
  (extract_swift_files input_name (sample_world swift_doc)).2 = inr tt.
Proof. vm_compute. reflexivity. Qed.

Lemma sample_run_eq :
  extract_swift_files input_name (sample_world swift_doc)
  = ((extract_swift_files input_name (sample_world swift_doc)).1, inr tt).
Proof. rewrite <- sample_run_ok. apply surjective_pairing. Qed.

Lemma extractor_multiplicity_witness :
  findall swift_doc = [(lit "a/b/c.swift", hello_world)]
  /\ contents (destination (lit "a/b/c.swift"))
       (extract_swift_files input_name (sample_world swift_doc)).1
     = inr hello_world.
Proof.
  destruct (extractor_multiplicity
              [([], (lit "a/b/c.swift", hello_world))] [] input_name
              (sample_world swift_doc)
              (extract_swift_files input_name (sample_world swift_doc)).1)
    as (Hfind & _ & Hcontents & _).
  - repeat constructor; try (by vm_compute).
    exists "a"%char, (lit "/b/c"). split; [reflexivity|].
    intros H. vm_compute in H. by repeat (apply elem_of_cons in H as [H|H]; [discriminate H|]);
      inversion H.
  - vm_compute. reflexivity.
  - apply read_text_sample. reflexivity.
  - apply sample_run_eq.
  - split; [exact Hfind|].
    apply (Hcontents [] _ _ []); [reflexivity|].
    intros m Hm. inversion Hm.
Defined.

(** C3: a second run against the same document ends as the first did
    and leaves the file system exactly as the first left it. *)
Theorem extractor_idempotent input content w w1 r :
  read_text input w = (w, inr content) ->
  extract_swift_files input w = (w1, r) ->
  read_text input w1 = (w1, inr content) ->
  exists w2,
    extract_swift_files input w1 = (w2, r)
    /\ files w2 = files w1
    /\ cwd w2 = cwd w1
    /\ exists lines, stdout w1 = stdout w ++ lines
                     /\ stdout w2 = stdout w1 ++ lines.
Proof.
  intros Hread Hrun Hread1.
  rewrite (extract_swift_files_eq _ _ _ Hread) in Hrun.
  rewrite (extract_swift_files_eq _ _ _ Hread1).
  by apply (for_each_rerun _ w).
Qed.

Lemma extractor_idempotent_witness :
  exists w2,
    extract_swift_files input_name
      (extract_swift_files input_name (sample_world swift_doc)).1
    = (w2, inr tt)
    /\ files w2 = files (extract_swift_files input_name (sample_world swift_doc)).1.
Proof.
  destruct (extractor_idempotent input_name swift_doc (sample_world swift_doc)
              (extract_swift_files input_name (sample_world swift_doc)).1 (inr tt))
    as (w2 & Hrun & Hfiles & _).
  - apply read_text_sample. reflexivity.
  - apply sample_run_eq.
  - unfold read_text.
    assert (contents input_name
              (extract_swift_files input_name (sample_world swift_doc)).1
            = inr swift_doc) as -> by (vm_compute; reflexivity).
    reflexivity.
  - exists w2. split; [exact Hrun|exact Hfiles].
Defined.

(** C4: for a readable document in which the pattern matches nowhere the
    extractor writes nothing, prints nothing and ends normally. *)
Theorem extractor_no_sections input content w :
  read_text input w = (w, inr content) ->
  findall content = [] ->
  extract_swift_files input w = (w, inr tt).
Proof.
  intros Hread Hnone.
  by rewrite (extract_swift_files_eq _ _ _ Hread), Hnone.
Qed.

Lemma extractor_no_sections_witness :
  extract_swift_files input_name (sample_world txt_doc)
  = (sample_world txt_doc, inr tt).
Proof.
  apply (extractor_no_sections input_name txt_doc).
  - apply read_text_sample. reflexivity.
  - apply findall_txt_doc.
Defined.



(** C9: the code breaks the claim at [mixed_doc], a [.txt] section in
    front of a [.swift] section.  The first section is not ignored: the
    one match starts at its header and takes its text, newlines
    included, as the path.  The run ends normally, reports that path and
    writes the code of the second section into a file of that name; no
    file is left at [<base>/d.swift], where the second section goes when
    it stands alone. *)
Lemma extractor_other_section_not_ignored :
  findall mixed_doc = [(swallowed_path, lit "B")]
  /\ findall (section_text (lit "d.swift") (lit "B")) = [(lit "d.swift", lit "B")]
  /\ nl ∈ swallowed_path
  /\ startswith mixed_doc (header_open ++ lit "a/b/c.txt**") = true
  /\ (extract_swift_files input_name (sample_world mixed_doc)).2 = inr tt
  /\ stdout (extract_swift_files input_name (sample_world mixed_doc)).1
     = [lit "Written: " ++ swallowed_path]
  /\ contents (destination swallowed_path)
       (extract_swift_files input_name (sample_world mixed_doc)).1
     = inr (lit "B")
  /\ contents (destination (lit "d.swift"))
       (extract_swift_files input_name (sample_world mixed_doc)).1
     = inl FileNotFoundError
  /\ contents (destination (lit "d.swift"))
       (extract_swift_files input_name
          (sample_world (section_text (lit "d.swift") (lit "B")))).1
     = inr (lit "B").
Proof.
  split; [vm_compute; reflexivity|]. split; [vm_compute; reflexivity|].
  split; [unfold swallowed_path; apply elem_of_app; right;
          apply elem_of_cons; by left|].
  repeat split; vm_compute; reflexivity.
Qed.

(** What every match is: an occurrence of a header, a path that ends in
    [.swift], the opening fence labelled [swift], the code and the
    closing fence; so the trimmed path and the destination end in
    [.swift]; and a document without the end of such a header followed
    by a [swift] fence has no match. *)
Theorem extractor_pattern content :
  (forall p c,
     (p, c) ∈ findall content ->
     (exists pre post, content = pre ++ section_text p c ++ post)
     /\ (exists a x, p = a :: x ++ ext)
     /\ (exists y, strip p = y ++ ext)
     /\ (exists y, destination p = y ++ ext))
  /\ (occurs (ext ++ fence_open) content = false -> findall content = []).
Proof.
  split.
  - intros p c Hin.
    apply findall_section in Hin as (pre & post & -> & (a & x & ->) & _).
    split; [exists pre, post; by rewrite section_text_app|].
    split; [by exists a, x|].
    split; [apply strip_keeps_ext|apply destination_ext].
  - intros Hocc. destruct (findall content) as [|[p c] l] eqn:E; [done|].
    assert ((p, c) ∈ findall content) as Hin by (rewrite E; apply elem_of_cons; by left).
    apply findall_section in Hin as (pre & post & -> & (a & x & ->) & _).
    assert (occurs (ext ++ fence_open)
              ((pre ++ header_open ++ a :: x) ++ (ext ++ fence_open)
               ++ c ++ fence_close ++ post) = true) as Hyes
      by (apply occurs_spec; eauto).
    rewrite (regroup_marker pre header_open (a :: x) ext fence_open) in Hyes.
    cbn [app] in Hyes, Hocc. congruence.
Qed.

Lemma extractor_pattern_witness :
  (exists y, destination (lit "a/b/c.swift") = y ++ ext)
  /\ findall txt_doc = [].
Proof.
  destruct (extractor_pattern swift_doc) as [Hsound _].
  destruct (extractor_pattern txt_doc) as [_ Hnone].
  split.
  - apply (Hsound (lit "a/b/c.swift") hello_world).
    rewrite findall_swift_doc. apply elem_of_cons. by left.
  - apply Hnone. vm_compute. reflexivity.
Defined.



End ExtractorFacts.

(** ** The script as it is run *)
Module MainFacts.
Import Re Os Extractor ReFacts MatchFacts CharFacts FindallFacts.
Import OsFacts PathFacts WorldFacts RunFacts ReplayFacts DestinationFacts.

Lemma upto_last_sep_length p : length (upto_last_sep p) <= length p.
Proof.
  induction p as [|c p IH]; [done|]. rewrite upto_last_sep_cons.
  destruct (is_sep c || existsb is_sep p); cbn [length]; lia.
Qed.

Lemma upto_last_sep_app y e :
  existsb is_sep e = false -> upto_last_sep (y ++ e) = upto_last_sep y.
Proof.
  intros He. induction y as [|c y IH].
  - cbn [app]. destruct e as [|c e]; [done|].
    rewrite upto_last_sep_cons. cbn [existsb] in He. by rewrite He.
  - cbn [app]. rewrite !upto_last_sep_cons, existsb_app, He, orb_false_r.
    by rewrite IH.
Qed.

(** The name of a file ends as its path does, when that end has no
    separator. *)
Lemma basename_app y e :
  existsb is_sep e = false -> basename (y ++ e) = basename y ++ e.
Proof.
  intros He. unfold basename. rewrite (upto_last_sep_app _ _ He).
  apply drop_app_le, upto_last_sep_length.
Qed.

Lemma classify_Down c name : classify c = Down name -> name = c.
Proof.
  unfold classify. destruct c as [|a c]; [done|].
  repeat case_decide; congruence.
Qed.

Lemma location_name p w loc :
  location p w = Some loc -> exists cur, loc = cur ++ [basename p].
Proof.
  unfold location, locate. destruct p as [|a p]; [done|].
  destruct (walk _ _ _) as [e|cur]; [done|].
  destruct (classify (basename (a :: p))) as [| |name] eqn:E; try done.
  apply classify_Down in E as ->. intros [= <-]. eauto.
Qed.

(** No match is written over the input document: the files of the
    matches have names that end in [.swift]. *)
Lemma destination_not_input a x w cur :
  location (destination (a :: x ++ ext)) w <> Some (cur ++ [input_name]).
Proof.
  intros H. apply location_name in H as [cur' H].
  apply app_inj_tail in H as [_ H].
  destruct (destination_ext a x) as [y Hy]. rewrite Hy in H.
  rewrite basename_app in H by reflexivity.
  apply (f_equal (@rev ascii)) in H. rewrite rev_app_distr in H.
  discriminate H.
Qed.

Lemma contents_input w :
  contents input_name w =
  match files w !! (cwd w ++ [input_name]) with
  | Some (File data) => inr data
  | Some Dir => inl IsADirectoryError
  | None => inl FileNotFoundError
  end.
Proof.
  unfold contents.
  assert (locate input_name w = inr (cwd w, Down input_name)) as ->
    by reflexivity.
  by rewrite node_at_snoc.
Qed.

(** The loop leaves the input document as it is. *)
Lemma for_each_keeps_input content w w1 r data :
  for_each (findall content) extract_one w = (w1, r) ->
  contents input_name w = inr data ->
  contents input_name w1 = inr data.
Proof.
  intros Hrun. rewrite !contents_input.
  pose proof (for_each_frame _ _ _ _ Hrun) as (Hext & Hcwd & _).
  rewrite Hcwd. set (loc := cwd w ++ [input_name]).
  destruct (files w !! loc) as [[d|]|] eqn:E; try done. intros [= ->].
  destruct (extends_File _ _ loc data Hext) as [d' Hd'].
  { unfold loc. by rewrite node_at_snoc. }
  unfold loc in Hd'. rewrite node_at_snoc in Hd'. fold loc in Hd'. rewrite Hd'.
  destruct (for_each_only_writes _ _ _ _ _ _ Hrun Hd') as [?|(m & Hin & Hloc & _)];
    [congruence|].
  destruct m as [p c].
  apply findall_section in Hin as (_ & _ & _ & (a & x & ->) & _).
  by apply destination_not_input in Hloc.
Qed.

Lemma read_text_inv p w w' r :
  read_text p w = (w', r) ->
  w' = w /\ match r with
            | inl e => contents p w = inl e
            | inr content =>
                exists data, contents p w = inr data
                             /\ content = universal_newlines data
            end.
Proof.
  unfold read_text. destruct (contents p w) as [e|data]; intros [= <- <-]; eauto.
Qed.

Lemma contents_same_files p w G :
  files G = files w -> cwd G = cwd w -> contents p G = contents p w.
Proof.
  intros Hf Hc. unfold contents, locate, origin. by rewrite Hf, Hc.
Qed.

(** The extractor as [main] calls it, run a second time on the file
    system the first run left: the second run ends as the first did and
    leaves the file system as it found it. *)
Lemma extract_swift_files_twice w w1 r G :
  extract_swift_files input_name w = (w1, r) ->
  files G = files w1 -> cwd G = cwd w1 ->
  exists G',
    extract_swift_files input_name G = (G', r) /\ files G' = files w1.
Proof.
  unfold extract_swift_files, bind. intros Hrun Hfiles Hcwd.
  unfold read_text at 1. rewrite (contents_same_files _ w1 G Hfiles Hcwd).
  destruct (read_text input_name w) as [w0 [e|content]] eqn:Hread;
    apply read_text_inv in Hread as [-> Hread].
  - injection Hrun as <- <-. rewrite Hread. eauto.
  - destruct Hread as (data & Hdata & ->).
    rewrite (for_each_keeps_input _ _ _ _ _ Hrun Hdata).
    destruct (for_each_rerun _ _ _ _ G Hrun Hfiles Hcwd) as (G' & Hrun2 & HG' & _).
    eauto.
Qed.

(** The whole script, run twice. *)
Lemma main_twice w w1 r :
  main w = (w1, r) ->
  exists w2, main w1 = (w2, r) /\ files w2 = files w1.
Proof.
  unfold main, bind. change (lit "remaining_files.txt") with input_name.
  destruct (extract_swift_files input_name w) as [wa [e|[]]] eqn:Hrun; intros Heq.
  - injection Heq as <- <-.
    destruct (extract_swift_files_twice _ _ _ wa Hrun eq_refl eq_refl)
      as (w2 & -> & Hfiles). eauto.
  - assert (w1 = say [[nl] ++ lit "Extraction complete!"] wa /\ r = inr tt)
      as [-> ->] by (unfold print in Heq; by injection Heq as <- <-).
    destruct (extract_swift_files_twice _ _ _
                (say [[nl] ++ lit "Extraction complete!"] wa) Hrun eq_refl eq_refl)
      as (w2 & -> & Hfiles).
    eexists. split; [reflexivity|exact Hfiles].
Qed.

End MainFacts.

(** ** More about the extractor *)
Module ExtractorMore.
Import Re Os Extractor Notions ReFacts MatchFacts CharFacts FindallFacts.
Import OsFacts PathFacts WorldFacts RunFacts ReplayFacts DestinationFacts MainFacts.


Lemma regroup_close (pre h p f c k post : str) :
  pre ++ h ++ p ++ f ++ c ++ k ++ post = (pre ++ h ++ p ++ f ++ c) ++ k ++ post.
Proof. by rewrite <- !app_assoc. Qed.

(** *** What a run leaves alone *)

(** X3: a run of the extractor, whether it ends normally or raises,
    removes no node, turns no file into a directory and no directory into
    a file, stays in its working directory and only adds to the output. *)
Theorem extractor_keeps_nodes input w w' r :
  extract_swift_files input w = (w', r) ->
  extends (files w) (files w')
  /\ cwd w' = cwd w
  /\ exists lines, stdout w' = stdout w ++ lines.
Proof.
  unfold extract_swift_files, bind.
  destruct (read_text input w) as [w0 [e|content]] eqn:Hread;
    apply read_text_inv in Hread as [-> _].
  - intros [= <- <-]. split; [apply extends_refl|]. split; [done|].
    exists []. by rewrite app_nil_r.
  - apply for_each_frame.
Qed.

Lemma location_swift a x w loc :
  location (destination (a :: x ++ ext)) w = Some loc -> swift_name loc.
Proof.
  intros H. apply location_name in H as [cur ->].
  destruct (destination_ext a x) as [y ->].
  rewrite basename_app by reflexivity. by exists cur, (basename y).
Qed.

(** The key of the root is never written. *)
Lemma extract_one_root m w w' r :
  extract_one m w = (w', r) -> files w' !! [] = files w !! [].
Proof.
  destruct m as [p c]. rewrite extract_one_eq.
  destruct (makedirs _ w) as [w1 r1] eqn:Hmk.
  assert (files w1 !! [] = files w !! []) as H1.
  { apply makedirs_frame in Hmk as (_ & _ & _ & Hch).
    by destruct (Hch []) as [?|(? & _)]. }
  destruct r1 as [e|[]]; [by intros [= <- <-]|].
  destruct (write_file _ c w1) as [w2 r2] eqn:Hwr.
  assert (files w2 !! [] = files w1 !! []) as H2.
  { apply write_file_inv in Hwr as [(_ & cur & name & _ & _ & ->)|(e & _ & ->)];
      [|done].
    cbn [files]. apply lookup_insert_ne, snoc_not_nil. }
  destruct r2 as [e|[]]; intros [= <- <-]; cbn [files say]; congruence.
Qed.

Lemma for_each_root ms w w' r :
  for_each ms extract_one w = (w', r) -> files w' !! [] = files w !! [].
Proof.
  revert w. induction ms as [|m ms IH]; intros w.
  - by intros [= <- <-].
  - intros H. apply for_each_cons_inv in H as (w1 & r1 & Hm & H).
    apply extract_one_root in Hm. destruct r1 as [e|[]].
    + destruct H as [-> _]. done.
    + apply IH in H. congruence.
Qed.

(** X4: the extractor writes no file but files whose name ends in
    [.swift]: a file there is after a run was there before with the same
    content or has such a name, and a file with another name keeps its
    content. *)
Theorem extractor_writes_swift_only input w w' r loc d :
  extract_swift_files input w = (w', r) ->
  (files w' !! loc = Some (File d) ->
   files w !! loc = Some (File d) \/ swift_name loc)
  /\ (files w !! loc = Some (File d) -> ~ swift_name loc ->
      files w' !! loc = Some (File d)).
Proof.
  unfold extract_swift_files, bind.
  destruct (read_text input w) as [w0 [e|content]] eqn:Hread;
    apply read_text_inv in Hread as [-> _].
  - intros [= <- <-]. split; auto.
  - intros Hrun.
    assert (forall d', files w' !! loc = Some (File d') ->
              files w !! loc = Some (File d') \/ swift_name loc) as Hback.
    { intros d' Hd'.
      destruct (for_each_only_writes _ _ _ _ _ _ Hrun Hd')
        as [?|([p c] & Hin & Hloc & _)]; [by left|right].
      apply findall_section in Hin as (_ & _ & _ & (a & x & ->) & _).
      by apply location_swift in Hloc. }
    split; [apply Hback|].
    intros Hd Hname.
    pose proof (for_each_frame _ _ _ _ Hrun) as (Hext & _).
    destruct loc as [|n loc].
    { by rewrite (for_each_root _ _ _ _ Hrun). }
    destruct (extends_File _ _ (n :: loc) d Hext Hd) as [d' Hd'].
    cbn [node_at] in Hd'. destruct (Hback d' Hd') as [?|?]; [congruence|done].
Qed.

Lemma extractor_writes_swift_only_witness :
  files (extract_swift_files input_name (sample_world swift_doc)).1
    !! [input_name] = Some (File swift_doc).
Proof.
  destruct (extractor_writes_swift_only input_name (sample_world swift_doc)
              (extract_swift_files input_name (sample_world swift_doc)).1
              (extract_swift_files input_name (sample_world swift_doc)).2
              [input_name] swift_doc) as [_ Hkeep].
  - apply surjective_pairing.
  - apply Hkeep; [reflexivity|].
    intros (dir & name & H). apply (app_inj_tail [] dir) in H as [_ H].
    apply (f_equal (@rev ascii)) in H. rewrite rev_app_distr in H.
    discriminate H.
Defined.

Lemma extractor_keeps_nodes_witness :
  cwd (extract_swift_files input_name (sample_world swift_doc)).1 = [].
Proof.
  destruct (extractor_keeps_nodes input_name (sample_world swift_doc)
              (extract_swift_files input_name (sample_world swift_doc)).1
              (extract_swift_files input_name (sample_world swift_doc)).2)
    as (_ & Hcwd & _).
  - apply surjective_pairing.
  - exact Hcwd.
Defined.

(** *** A round that raises *)



(** A round that raises has printed nothing. *)
Lemma extract_one_raises_stdout m w w' e :
  extract_one m w = (w', inl e) -> stdout w' = stdout w.
Proof.
  destruct m as [p c]. rewrite extract_one_eq.
  destruct (makedirs _ w) as [w1 [e1|[]]] eqn:Hmk;
    apply makedirs_frame in Hmk as (_ & _ & Hout & _).
  - by intros [= <- _].
  - destruct (write_file _ c w1) as [w2 [e2|[]]] eqn:Hwr; [|done].
    apply write_file_frame in Hwr as (_ & _ & Hout2). intros [= <- _]. congruence.
Qed.






(** *** Paths *)

(** X6: a match whose trimmed path starts with a separator is written at
    that very path, the base directory left out, and the file there holds
    its code. *)
Theorem extractor_absolute_path p c w w' :
  startswith (strip p) [slash] = true ->
  extract_one (p, c) w = (w', inr tt) ->
  destination p = strip p /\ contents (strip p) w' = inr c.
Proof.
  intros Habs Hone.
  assert (destination p = strip p) as Hdest
    by (unfold destination; by rewrite join_base, Habs).
  split; [done|]. rewrite <- Hdest.
  by apply extract_one_ok in Hone as (_ & _ & _ & _ & _ & _ & _ & Hc & _).
Qed.

Lemma absolute_round_ok :
  (extract_one (lit "/x.swift", lit "A") (sample_world swift_doc)).2 = inr tt.
Proof. vm_compute. reflexivity. Qed.

Lemma extractor_absolute_path_witness :
  contents (lit "/x.swift")
    (extract_one (lit "/x.swift", lit "A") (sample_world swift_doc)).1
  = inr (lit "A").
Proof.
  destruct (extractor_absolute_path (lit "/x.swift") (lit "A")
              (sample_world swift_doc)
              (extract_one (lit "/x.swift", lit "A") (sample_world swift_doc)).1)
    as [_ Hc].
  - reflexivity.
  - rewrite <- absolute_round_ok. apply surjective_pairing.
  - exact Hc.
Defined.

Lemma lstrip_with_space f ws s :
  forallb f ws = true -> lstrip_with f (ws ++ s) = lstrip_with f s.
Proof.
  induction ws as [|c ws IH]; [done|]. cbn [forallb app lstrip_with].
  intros H. apply andb_true_iff in H as [-> H]. auto.
Qed.

Lemma lstrip_with_all f s :
  forallb f s = true -> lstrip_with f s = [].
Proof.
  intros H. rewrite <- (app_nil_r s). by rewrite lstrip_with_space.
Qed.

Lemma rstrip_with_space f s ws :
  forallb f ws = true -> rstrip_with f (s ++ ws) = rstrip_with f s.
Proof.
  intros H. unfold rstrip_with. rewrite rev_app_distr.
  by rewrite lstrip_with_space by (by apply forallb_rev).
Qed.

Lemma strip_space ws1 s ws2 :
  forallb isspace ws1 = true -> forallb isspace ws2 = true ->
  strip (ws1 ++ s ++ ws2) = strip s.
Proof.
  intros H1 H2. unfold strip. rewrite lstrip_with_space by done.
  destruct (lstrip_with_spec isspace s) as (a & Hs & Ha & Hc).
  destruct (lstrip_with isspace s) as [|c t] eqn:E.
  - rewrite app_nil_r in Hs. subst a.
    rewrite lstrip_with_all; [done|].
    by rewrite forallb_app, Ha, H2.
  - rewrite Hs at 1. rewrite <- app_assoc, lstrip_with_space by done.
    cbn [app lstrip_with]. rewrite Hc.
    change (c :: t ++ ws2) with ((c :: t) ++ ws2).
    by apply rstrip_with_space.
Qed.

(** X7: whitespace around the path of a match makes no difference to
    what the loop does for it. *)
Theorem extractor_ignores_whitespace ws1 ws2 p c w :
  forallb isspace ws1 = true -> forallb isspace ws2 = true ->
  extract_one (ws1 ++ p ++ ws2, c) w = extract_one (p, c) w.
Proof.
  intros H1 H2. unfold extract_one. by rewrite strip_space.
Qed.

Lemma extractor_ignores_whitespace_witness :
  extract_one (lit "  " ++ lit "a.swift" ++ [nl], lit "A") (sample_world swift_doc)
  = extract_one (lit "a.swift", lit "A") (sample_world swift_doc).
Proof.
  apply (extractor_ignores_whitespace (lit "  ") [nl]); reflexivity.
Defined.

(** *** The matches of a document *)

(** X8: the matches lie one behind the other in the document, in the
    order in which [findall] gives them: the document is some text, the
    section of the first match, some text, the section of the second
    match and so on, and a tail. *)
Theorem findall_decomposition content :
  exists texts tail,
    length texts = length (findall content)
    /\ content = document (zip texts (findall content)) tail.
Proof.
  remember (length content) as n eqn:Hn. revert content Hn.
  induction n as [n IH] using lt_wf_ind. intros s ->.
  destruct (match_here s) as [[[p c] rest]|] eqn:E.
  - pose proof (match_here_shrinks _ _ _ _ E) as Hlt.
    destruct (IH _ Hlt rest eq_refl) as (texts & tail & Hlen & Hrest).
    exists ([] :: texts), tail. rewrite (findall_match _ _ _ _ E).
    cbn [length zip zip_with document app]. split; [by rewrite Hlen|].
    rewrite <- Hrest. by apply match_here_text.
  - destruct s as [|a s]; [by exists [], []|].
    rewrite (findall_skip _ _ E).
    destruct (IH (length s) ltac:(cbn [length]; lia) s eq_refl)
      as (texts & tail & Hlen & Hs).
    destruct (findall s) as [|[p c] ms] eqn:Hms.
    + exists [], (a :: tail). split; [done|].
      destruct texts; [|done]. cbn [zip zip_with document] in *. by rewrite Hs at 1.
    + destruct texts as [|t texts]; [done|].
      exists ((a :: t) :: texts), tail. split; [done|].
      cbn [zip zip_with document app] in *. by rewrite Hs at 1.
Qed.

(** X9: a match takes at least 29 characters, so a document has at most
    a 29th as many matches as characters. *)
Theorem findall_bound content :
  min_section = 29
  /\ min_section * length (findall content) <= length content.
Proof.
  split; [reflexivity|].
  remember (length content) as n eqn:Hn. revert content Hn.
  induction n as [n IH] using lt_wf_ind. intros s ->.
  destruct (match_here s) as [[[p c] rest]|] eqn:E.
  - pose proof (match_here_shrinks _ _ _ _ E) as Hlt.
    specialize (IH _ Hlt rest eq_refl).
    rewrite (findall_match _ _ _ _ E). cbn [length].
    pose proof E as Hs. apply match_here_sound in Hs as ((a & x & ->) & -> & _).
    rewrite !length_app in *. cbn [length]. rewrite length_app.
    unfold min_section in *. lia.
  - destruct s as [|a s]; [cbn; lia|].
    rewrite (findall_skip _ _ E).
    specialize (IH (length s) ltac:(cbn [length]; lia) s eq_refl).
    cbn [length]. lia.
Qed.

(** X10: a document without the header marker, or without a closing
    fence, has no match. *)
Theorem findall_needs_markers content :
  occurs header_open content = false \/ occurs fence_close content = false ->
  findall content = [].
Proof.
  intros Hno. destruct (findall content) as [|[p c] l] eqn:E; [done|].
  assert ((p, c) ∈ findall content) as Hin
    by (rewrite E; apply elem_of_cons; by left).
  apply findall_section in Hin as (pre & post & -> & _ & _).
  assert (occurs header_open (pre ++ header_open ++ p ++ fence_open ++ c
                              ++ fence_close ++ post) = true) as H1
    by (apply occurs_spec; eauto).
  assert (occurs fence_close (pre ++ header_open ++ p ++ fence_open ++ c
                              ++ fence_close ++ post) = true) as H2.
  { apply occurs_spec.
    exists (pre ++ header_open ++ p ++ fence_open ++ c), post.
    apply regroup_close. }
  destruct Hno; congruence.
Qed.

Lemma findall_needs_markers_witness : findall (lit "### **a.swift**") = [].
Proof. apply findall_needs_markers. right. reflexivity. Defined.

(** *** The file of a match *)

Lemma contents_inv p w d :
  contents p w = inr d ->
  exists loc, location p w = Some loc /\ files w !! loc = Some (File d).
Proof.
  unfold location, contents.
  destruct (locate p w) as [e|[cur [| |name]]]; try done.
  rewrite node_at_snoc.
  destruct (files w !! (cur ++ [name])) as [[d'|]|] eqn:E; try done.
  intros [= ->]. eauto.
Qed.

Lemma last_such {A} (P : A -> Prop) `{!forall x, Decision (P x)} (l : list A) :
  Exists P l ->
  exists l1 y l2, l = l1 ++ y :: l2 /\ P y /\ forall z, z ∈ l2 -> ~ P z.
Proof.
  induction l as [|a l IH]; intros Hex; [by apply Exists_nil in Hex|].
  destruct (decide (Exists P l)) as [Hl|Hl].
  - destruct (IH Hl) as (l1 & y & l2 & -> & Hy & Hz).
    by exists (a :: l1), y, l2.
  - apply Exists_cons in Hex as [Ha|]; [|done].
    exists [], a, l. repeat split; [done|].
    intros z Hz HPz. apply Hl, Exists_exists. eauto.
Qed.

(** X14: after a run that ends normally, whatever the text was, there is
    a file at the destination of every match; it holds the code of the
    last match that went to that file. *)
Theorem extractor_every_match_written input content w w' p c :
  read_text input w = (w, inr content) ->
  extract_swift_files input w = (w', inr tt) ->
  (p, c) ∈ findall content ->
  exists l1 p' c' l2,
    findall content = l1 ++ (p', c') :: l2
    /\ location (destination p') w' = location (destination p) w'
    /\ (forall m, m ∈ l2 ->
          location (destination m.1) w' <> location (destination p) w')
    /\ contents (destination p) w' = inr c'.
Proof.
  intros Hread Hrun Hin.
  unfold extract_swift_files, bind in Hrun. rewrite Hread in Hrun.
  destruct (last_such
              (fun m => location (destination m.1) w' = location (destination p) w')
              (findall content))
    as (l1 & [p' c'] & l2 & Hsplit & Hsame & Hlater).
  { apply Exists_exists. by exists (p, c). }
  cbn [fst] in Hsame. exists l1, p', c', l2.
  split; [done|]. split; [done|]. split; [done|].
  rewrite Hsplit in Hrun.
  assert (contents (destination p') w' = inr c') as Hc.
  { apply (for_each_contents _ _ _ _ _ _ Hrun).
    intros m Hm. rewrite Hsame. by apply Hlater. }
  apply contents_inv in Hc as (loc & Hloc & Hfile).
  apply (contents_location _ _ loc); [congruence|done].
Qed.

Lemma twice_read :
  read_text input_name (sample_world (document twice_parts []))
  = (sample_world (document twice_parts []), inr (document twice_parts [])).
Proof. vm_compute. reflexivity. Qed.

Lemma twice_run_ok :
  (extract_swift_files input_name (sample_world (document twice_parts []))).2
  = inr tt.
Proof. vm_compute. reflexivity. Qed.

Lemma twice_findall :
  findall (document twice_parts [])
  = [(lit "a.swift", lit "A"); (lit "a.swift", lit "B")].
Proof. vm_compute. reflexivity. Qed.

Lemma extractor_every_match_written_witness :
  exists l1 p' c' l2,
    findall (document twice_parts []) = l1 ++ (p', c') :: l2
    /\ location (destination p')
         (extract_swift_files input_name
            (sample_world (document twice_parts []))).1
       = location (destination (lit "a.swift"))
           (extract_swift_files input_name
              (sample_world (document twice_parts []))).1
    /\ (forall m, m ∈ l2 ->
          location (destination m.1)
            (extract_swift_files input_name
               (sample_world (document twice_parts []))).1
          <> location (destination (lit "a.swift"))
               (extract_swift_files input_name
                  (sample_world (document twice_parts []))).1)
    /\ contents (destination (lit "a.swift"))
         (extract_swift_files input_name
            (sample_world (document twice_parts []))).1
       = inr c'.
Proof.
  apply (extractor_every_match_written input_name (document twice_parts [])
           (sample_world (document twice_parts [])) _ (lit "a.swift") (lit "A")).
  - apply twice_read.
  - rewrite <- twice_run_ok. apply surjective_pairing.
  - rewrite twice_findall. apply list_elem_of_here.
Defined.

(** *** Line ends *)

Lemma universal_newlines_no_cr s : cr ∉ universal_newlines s.
Proof.
  remember (length s) as n eqn:Hn. revert s Hn.
  induction n as [n IH] using lt_wf_ind. intros [|c s] ->; cbn [universal_newlines].
  - apply not_elem_of_nil.
  - destruct (Ascii.eqb_spec c cr) as [->|Hc].
    + apply not_elem_of_cons. split; [done|].
      destruct s as [|c' s]; [apply not_elem_of_nil|].
      destruct (Ascii.eqb c' nl).
      * apply (IH (length s)); [cbn [length]; lia|done].
      * apply (IH (length (c' :: s))); [cbn [length]; lia|done].
    + apply not_elem_of_cons. split; [done|].
      apply (IH (length s)); [cbn [length]; lia|done].
Qed.

Lemma universal_newlines_plain l rest :
  cr ∉ l -> universal_newlines (l ++ rest) = l ++ universal_newlines rest.
Proof.
  induction l as [|a l IH]; intros H; [done|].
  apply not_elem_of_cons in H as [Hne H]. cbn [app universal_newlines].
  destruct (Ascii.eqb_spec a cr) as [->|_]; [done|]. by rewrite IH.
Qed.

Lemma universal_newlines_lf t :
  universal_newlines (nl :: t) = nl :: universal_newlines t.
Proof. reflexivity. Qed.

Lemma universal_newlines_crlf t :
  universal_newlines (cr :: nl :: t) = nl :: universal_newlines t.
Proof. reflexivity. Qed.

Lemma universal_newlines_cr t :
  (forall t', t <> nl :: t') ->
  universal_newlines (cr :: t) = nl :: universal_newlines t.
Proof.
  intros H. destruct t as [|c t]; [reflexivity|].
  cbn [universal_newlines]. rewrite Ascii.eqb_refl.
  destruct (Ascii.eqb_spec c nl) as [->|Hc]; [by destruct (H t)|].
  destruct (Ascii.eqb_spec c cr) as [->|_]; reflexivity.
Qed.

Lemma clash_cons l e rest :
  clash ((l, e) :: rest) = false ->
  clash rest = false
  /\ (e = CR -> forall rest', rest <> ([], LF) :: rest').
Proof.
  destruct e; cbn [clash]; intros H; try (split; [exact H|done]).
  destruct rest as [|[[|c l2] []] rest']; try done; split; try done;
    intros _ rest'' [=].
Qed.

Lemma text_of_head lines last t :
  Forall (fun l => one_line l.1) lines -> nl ∉ last ->
  (forall rest, lines <> ([], LF) :: rest) ->
  text_of lines last <> nl :: t.
Proof.
  intros Hlines Hlast Hhead. destruct lines as [|[[|c l] e] rest]; cbn [text_of].
  - intros ->. apply Hlast, list_elem_of_here.
  - destruct e; cbn [end_text app]; [by destruct (Hhead rest)|done|done].
  - apply Forall_cons in Hlines as [[_ Hnl] _]. cbn [fst app] in *.
    intros [= -> _]. apply Hnl, list_elem_of_here.
Qed.

(** Reading makes every line end a line feed and leaves the lines as
    they are. *)
Lemma universal_newlines_text lines last :
  Forall (fun l => one_line l.1) lines -> one_line last -> clash lines = false ->
  universal_newlines (text_of lines last) = unix_text lines last.
Proof.
  intros Hlines [Hcr Hnl]. unfold unix_text.
  induction lines as [|[l e] rest IH]; intros Hclash; cbn [text_of map fst].
  - rewrite <- (app_nil_r last) at 1. rewrite universal_newlines_plain by done.
    by rewrite app_nil_r.
  - apply Forall_cons in Hlines as [[Hl _] Hrest]. cbn [fst] in Hl.
    apply clash_cons in Hclash as [Hclash Hhead].
    rewrite universal_newlines_plain by done. f_equal.
    rewrite <- (IH Hrest Hclash).
    destruct e; cbn [end_text app].
    + apply universal_newlines_lf.
    + apply universal_newlines_cr. intros t.
      apply text_of_head; [done|done|by apply Hhead].
    + apply universal_newlines_crlf.
Qed.

(** Every text is lines with their ends. *)
Lemma text_of_lines s :
  exists lines last,
    s = text_of lines last
    /\ Forall (fun l => one_line l.1) lines /\ one_line last
    /\ clash lines = false.
Proof.
  assert (one_line []) as Hnil by (split; apply not_elem_of_nil).
  induction s as [|c s (lines & last & -> & Hlines & Hlast & Hclash)].
  - by exists [], [].
  - destruct (decide (c = nl)) as [->|Hnl].
    { exists (([], LF) :: lines), last. split; [done|].
      split; [by apply Forall_cons|]. done. }
    destruct (decide (c = cr)) as [->|Hcr].
    { destruct lines as [|[[|c2 l2] e2] rest].
      - exists [([], CR)], last. split; [done|].
        split; [by apply Forall_cons|]. done.
      - destruct e2.
        + exists (([], CRLF) :: rest), last. split; [done|].
          apply Forall_cons in Hlines as [_ Hrest].
          split; [by apply Forall_cons|]. done.
        + exists (([], CR) :: ([], CR) :: rest), last. split; [done|].
          split; [by apply Forall_cons|]. done.
        + exists (([], CR) :: ([], CRLF) :: rest), last. split; [done|].
          split; [by apply Forall_cons|]. done.
      - exists (([], CR) :: (c2 :: l2, e2) :: rest), last. split; [done|].
        split; [by apply Forall_cons|]. done. }
    destruct lines as [|[l e] rest].
    + exists [], (c :: last). split; [done|]. split; [done|].
      destruct Hlast. split; [|done].
      split; apply not_elem_of_cons; done.
    + exists ((c :: l, e) :: rest), last. split; [done|].
      apply Forall_cons in Hlines as [[Hl1 Hl2] Hrest]. cbn [fst] in *.
      split; [|done]. apply Forall_cons. split; [|done].
      split; apply not_elem_of_cons; done.
Qed.

(** X11: the input is read with every line end, be it a line feed, a
    carriage return or the two in a row, made a line feed.  Every text
    is lines with their ends; the text the extractor reads is these
    lines, each ended by a line feed; the matches are those of that
    text, whatever the line ends of the file were; and no path and no
    code of a match holds a carriage return. *)
Theorem extractor_line_ends input w data :
  contents input w = inr data ->
  (exists lines last,
     data = text_of lines last
     /\ Forall (fun l => one_line l.1) lines /\ one_line last
     /\ clash lines = false)
  /\ (forall lines last,
        data = text_of lines last ->
        Forall (fun l => one_line l.1) lines -> one_line last ->
        clash lines = false ->
        read_text input w = (w, inr (unix_text lines last))
        /\ extract_swift_files input w
           = for_each (findall (unix_text lines last)) extract_one w
        /\ forall p c,
             (p, c) ∈ findall (unix_text lines last) -> (cr ∉ p) /\ (cr ∉ c)).
Proof.
  intros Hdata. split; [apply text_of_lines|].
  intros lines last -> Hlines Hlast Hclash.
  assert (read_text input w = (w, inr (unix_text lines last))) as Hread.
  { unfold read_text. rewrite Hdata. by rewrite universal_newlines_text. }
  split; [done|]. split.
  - unfold extract_swift_files, bind. by rewrite Hread.
  - intros p c Hin.
    pose proof (universal_newlines_no_cr (text_of lines last)) as Hno.
    rewrite universal_newlines_text in Hno by done.
    apply findall_section in Hin as (pre & post & Heq & _).
    rewrite Heq in Hno. rewrite !not_elem_of_app in Hno. tauto.
Qed.

Lemma crlf_contents :
  contents input_name (sample_world crlf_doc)
  = inr (text_of crlf_lines (lit "```")).
Proof. vm_compute. reflexivity. Qed.

Lemma no_line_end (l : str) :
  forallb (fun c => negb (Ascii.eqb c cr) && negb (Ascii.eqb c nl)) l = true ->
  one_line l.
Proof.
  induction l as [|c l IH]; cbn [forallb]; [split; apply not_elem_of_nil|].
  intros H. apply andb_true_iff in H as [Hc H]. destruct (IH H) as [H1 H2].
  apply andb_true_iff in Hc as [Hc1 Hc2].
  split; apply not_elem_of_cons; (split; [|done]); intros <-;
    by rewrite Ascii.eqb_refl in *.
Qed.

Lemma crlf_lines_plain : Forall (fun l => one_line l.1) crlf_lines.
Proof. repeat constructor; apply no_line_end; reflexivity. Qed.

Lemma cr_lines_plain : Forall (fun l => one_line l.1) cr_lines.
Proof. repeat constructor; apply no_line_end; reflexivity. Qed.

Lemma cr_contents :
  contents input_name (sample_world (text_of cr_lines (lit "```")))
  = inr (text_of cr_lines (lit "```")).
Proof. vm_compute. reflexivity. Qed.

Lemma extractor_line_ends_witness :
  read_text input_name (sample_world crlf_doc)
  = (sample_world crlf_doc, inr (section_text (lit "a.swift") (lit "A")))
  /\ read_text input_name (sample_world (text_of cr_lines (lit "```")))
     = (sample_world (text_of cr_lines (lit "```")),
        inr (section_text (lit "a.swift") (lit "A"))).
Proof.
  destruct (extractor_line_ends input_name (sample_world crlf_doc)
              (text_of crlf_lines (lit "```")) crlf_contents) as [_ H1].
  destruct (extractor_line_ends input_name
              (sample_world (text_of cr_lines (lit "```")))
              (text_of cr_lines (lit "```")) cr_contents) as [_ H2].
  destruct (H1 crlf_lines (lit "```")) as [Hread1 _];
    [reflexivity|apply crlf_lines_plain|apply no_line_end; reflexivity
    |reflexivity|].
  destruct (H2 cr_lines (lit "```")) as [Hread2 _];
    [reflexivity|apply cr_lines_plain|apply no_line_end; reflexivity
    |reflexivity|].
  split; [exact Hread1|exact Hread2].
Defined.

(** *** The script *)

Lemma for_each_fails {A} (f : A -> M unit) ms w w' e :
  for_each ms f w = (w', inl e) ->
  exists l1 m l2 w1,
    ms = l1 ++ m :: l2
    /\ for_each l1 f w = (w1, inr tt)
    /\ f m w1 = (w', inl e).
Proof.
  revert w. induction ms as [|m ms IH]; intros w; [done|].
  intros H. apply for_each_cons_inv in H as (w1 & [e1|[]] & Hm & H).
  - destruct H as [-> [= ->]]. by exists [], m, ms, w.
  - apply IH in H as (l1 & m' & l2 & w2 & -> & Hl1 & Hm').
    exists (m :: l1), m', l2, w2. repeat split; [|done].
    cbn [for_each]. unfold bind. by rewrite Hm.
Qed.

(** X2: what the script has printed when it ends.  When it ends normally
    that is a line for each match of the text, in their order, and then
    the completion line.  When it raises, the completion line is not
    printed: either the text could not be read and nothing has changed,
    or the rounds of the matches [l1] ended normally, the round of the
    next match [m] raised the exception, and the lines of [l1] are all
    that has been printed. *)
Theorem main_report w w' r :
  main w = (w', r) ->
  match r with
  | inr _ =>
      exists content,
        read_text input_name w = (w, inr content)
        /\ stdout w' = stdout w ++ map (fun m => written_line m.1) (findall content)
                        ++ [completion_line]
  | inl e =>
      (read_text input_name w = (w, inl e) /\ w' = w)
      \/ exists content l1 m l2 w1,
           read_text input_name w = (w, inr content)
           /\ findall content = l1 ++ m :: l2
           /\ for_each l1 extract_one w = (w1, inr tt)
           /\ extract_one m w1 = (w', inl e)
           /\ stdout w' = stdout w ++ map (fun m => written_line m.1) l1
  end.
Proof.
  unfold main, extract_swift_files, bind.
  change (lit "remaining_files.txt") with input_name.
  destruct (read_text input_name w) as [w0 [e0|content]] eqn:Hread.
  - pose proof Hread as Hinv. apply read_text_inv in Hinv as [-> _].
    intros [= <- <-]. by left.
  - pose proof Hread as Hinv. apply read_text_inv in Hinv as [-> _].
    destruct (for_each (findall content) extract_one w) as [w1 [e|[]]] eqn:Hloop.
    + intros [= <- <-]. right.
      apply for_each_fails in Hloop as (l1 & m & l2 & w2 & Hms & Hl1 & Hm).
      exists content, l1, m, l2, w2.
      split; [done|]. split; [done|]. split; [done|]. split; [done|].
      rewrite (extract_one_raises_stdout _ _ _ _ Hm). by apply for_each_stdout.
    + unfold print, say. intros [= <- <-]. exists content. split; [done|].
      cbn [stdout]. rewrite (for_each_stdout _ _ _ Hloop). by rewrite app_assoc.
Qed.

Lemma main_sample_ok : (main (sample_world swift_doc)).2 = inr tt.
Proof. vm_compute. reflexivity. Qed.

Lemma main_blocked_raises :
  (main (sample_world blocked_doc)).2 = inl FileExistsError.
Proof. vm_compute. reflexivity. Qed.

Lemma main_report_witness :
  (exists content,
     read_text input_name (sample_world swift_doc)
     = (sample_world swift_doc, inr content)
     /\ stdout (main (sample_world swift_doc)).1
        = stdout (sample_world swift_doc)
          ++ map (fun m => written_line m.1) (findall content) ++ [completion_line])
  /\ ((read_text input_name (sample_world blocked_doc)
       = (sample_world blocked_doc, inl FileExistsError)
       /\ (main (sample_world blocked_doc)).1 = sample_world blocked_doc)
      \/ exists content l1 m l2 w1,
           read_text input_name (sample_world blocked_doc)
           = (sample_world blocked_doc, inr content)
           /\ findall content = l1 ++ m :: l2
           /\ for_each l1 extract_one (sample_world blocked_doc) = (w1, inr tt)
           /\ extract_one m w1
              = ((main (sample_world blocked_doc)).1, inl FileExistsError)
           /\ stdout (main (sample_world blocked_doc)).1
              = stdout (sample_world blocked_doc)
                ++ map (fun m => written_line m.1) l1).
Proof.
  split.
  - apply (main_report (sample_world swift_doc) (main (sample_world swift_doc)).1
             (inr tt)).
    rewrite <- main_sample_ok. apply surjective_pairing.
  - apply (main_report (sample_world blocked_doc)
             (main (sample_world blocked_doc)).1 (inl FileExistsError)).
    rewrite <- main_blocked_raises. apply surjective_pairing.
Defined.

(** X1: the script run a second time, on what the first run left, ends
    as the first run did, leaves every file and directory as it found
    it, and prints the lines of the first run once more. *)
Theorem main_rerun w w1 r :
  main w = (w1, r) ->
  exists w2 lines,
    main w1 = (w2, r)
    /\ files w2 = files w1
    /\ stdout w1 = stdout w ++ lines
    /\ stdout w2 = stdout w1 ++ lines.
Proof.
  unfold main, extract_swift_files, bind.
  change (lit "remaining_files.txt") with input_name.
  destruct (read_text input_name w) as [w0 [e0|content]] eqn:Hread;
    apply read_text_inv in Hread as [-> Hread].
  - intros [= <- <-]. exists w, []. unfold read_text. rewrite Hread.
    by rewrite app_nil_r.
  - destruct Hread as (data & Hdata & ->).
    destruct (for_each (findall (universal_newlines data)) extract_one w)
      as [wa [e|[]]] eqn:Hloop.
    + intros [= <- <-].
      destruct (for_each_rerun _ _ _ _ wa Hloop eq_refl eq_refl)
        as (G' & Hrun2 & HG' & _ & lines & Hl1 & Hl2).
      exists G', lines. unfold read_text.
      rewrite (for_each_keeps_input _ _ _ _ _ Hloop Hdata), Hrun2. done.
    + intros Heq.
      assert (w1 = say [completion_line] wa /\ r = inr tt) as [-> ->]
        by (unfold print in Heq; by injection Heq as <- <-).
      destruct (for_each_rerun _ _ _ _ (say [completion_line] wa) Hloop
                  eq_refl eq_refl)
        as (G' & Hrun2 & HG' & _ & lines & Hl1 & Hl2).
      exists (say [completion_line] G'), (lines ++ [completion_line]).
      unfold read_text.
      rewrite (contents_same_files _ wa (say [completion_line] wa) eq_refl eq_refl).
      rewrite (for_each_keeps_input _ _ _ _ _ Hloop Hdata).
      fold completion_line. rewrite Hrun2. split; [done|]. split; [exact HG'|].
      cbn [say stdout]. rewrite Hl2. cbn [say stdout]. rewrite !Hl1.
      by rewrite <- !app_assoc.
Qed.

Lemma main_rerun_witness :
  exists w2 lines,
    main (main (sample_world swift_doc)).1 = (w2, inr tt)
    /\ files w2 = files (main (sample_world swift_doc)).1
    /\ stdout (main (sample_world swift_doc)).1
       = stdout (sample_world swift_doc) ++ lines
    /\ stdout w2 = stdout (main (sample_world swift_doc)).1 ++ lines.
Proof.
  apply (main_rerun (sample_world swift_doc)).
  rewrite <- main_sample_ok. apply surjective_pairing.
Defined.

End ExtractorMore.

(** ** More about the inspector *)
Module InspectorMore.
Import Os Inspector Notions InspectorFacts.

Lemma dict_zip_other fieldnames record d key :
  key ∉ fieldnames -> dict_zip fieldnames record d !! key = d !! key.
Proof.
  revert record d. induction fieldnames as [|k fs IH]; intros [|v rs] d Hk;
    cbn [dict_zip]; try done.
  apply not_elem_of_cons in Hk as [Hne Hk].
  rewrite IH by done. by rewrite lookup_insert_ne.
Qed.

Lemma fill_none_other keys d key :
  key ∉ keys -> fill_none keys d !! key = d !! key.
Proof.
  revert d. induction keys as [|k ks IH]; intros d Hk; cbn [fill_none]; [done|].
  apply not_elem_of_cons in Hk as [Hne Hk].
  rewrite IH by done. by rewrite lookup_insert_ne.
Qed.

Lemma fill_none_lookup keys d key :
  key ∈ keys -> fill_none keys d !! key = Some None.
Proof.
  revert d. induction keys as [|k ks IH]; intros d Hk; cbn [fill_none].
  - by apply elem_of_nil in Hk.
  - destruct (decide (key ∈ ks)) as [Hin|Hout]; [by apply IH|].
    apply elem_of_cons in Hk as [->|Hk]; [|done].
    rewrite fill_none_other by done. by rewrite lookup_insert_eq.
Qed.

Lemma dict_zip_lookup fieldnames record d i key :
  fieldnames !! i = Some key -> key ∉ drop (S i) fieldnames ->
  i < length record ->
  dict_zip fieldnames record d !! key = Some (record !! i).
Proof.
  revert record d i. induction fieldnames as [|k fs IH]; intros record d i; [done|].
  destruct record as [|v rs]; [cbn [length]; lia|].
  destruct i as [|i]; cbn [dict_zip length].
  - intros [= ->] Hlast _. cbn [drop] in Hlast.
    rewrite dict_zip_other by done. by rewrite lookup_insert_eq.
  - intros Hi Hlast Hlt. exact (IH rs _ i Hi Hlast ltac:(lia)).
Qed.

Lemma drop_suffix {A} (x : A) (l : list A) i n :
  i <= n -> x ∉ drop i l -> x ∉ drop n l.
Proof.
  intros Hle Hno Hin. apply Hno.
  apply list_elem_of_lookup in Hin as [j Hj]. rewrite lookup_drop in Hj.
  apply list_elem_of_lookup. exists (n - i + j). rewrite lookup_drop.
  by replace (i + (n - i + j)) with (n + j) by lia.
Qed.

(** X12: the value a row gives for a column is the value the record has
    at the last place of that column in the header, and [None] when the
    record is too short to have one. *)
Theorem row_value fieldnames record i key :
  fieldnames !! i = Some key ->
  key ∉ drop (S i) fieldnames ->
  fields (make_row fieldnames record) !! key = Some (record !! i).
Proof.
  intros Hi Hlast. pose proof (lookup_lt_Some _ _ _ Hi) as Hlt.
  unfold make_row.
  destruct (Nat.ltb_spec (length fieldnames) (length record)) as [H1|H1];
    cbn [fields]; [apply dict_zip_lookup; [done|done|lia]|].
  destruct (Nat.ltb_spec (length record) (length fieldnames)) as [H2|H2];
    cbn [fields]; [|apply dict_zip_lookup; [done|done|lia]].
  destruct (le_lt_dec (length record) i) as [Hge|Hin].
  - rewrite (lookup_ge_None_2 record i) by done.
    apply fill_none_lookup. apply list_elem_of_lookup.
    exists (i - length record). rewrite lookup_drop.
    by replace (length record + (i - length record)) with i by lia.
  - rewrite fill_none_other by (by apply (drop_suffix _ _ (S i)); [lia|]).
    by apply dict_zip_lookup.
Qed.

Lemma row_value_witness :
  fields (make_row columns sample_record) !! lit "SCALE_SCORE"
  = Some (Some (lit "650")).
Proof.
  apply (row_value columns sample_record 3 (lit "SCALE_SCORE")).
  - reflexivity.
  - apply not_elem_of_nil.
Defined.

Lemma getitem_has fieldnames record key w :
  key ∈ fieldnames ->
  exists v, getitem (make_row fieldnames record) key w = (w, inr v).
Proof.
  intros Hin. unfold getitem.
  destruct (make_row_has fieldnames record key Hin) as [v ->]. by exists v.
Qed.

Lemma getitem_lacks fieldnames record key w :
  key ∉ fieldnames ->
  getitem (make_row fieldnames record) key w = (w, inl (KeyError key)).
Proof.
  intros Hout. unfold getitem. by rewrite make_row_lacks.
Qed.

Lemma preview_first_missing fieldnames record key w :
  first_missing fieldnames = Some key ->
  preview (make_row fieldnames record) w = (w, inl (KeyError key)).
Proof.
  unfold first_missing, columns, preview, bind. cbn [List.find].
  destruct (decide (lit "MSIS" ∈ fieldnames)) as [H1|H1].
  2:{ rewrite bool_decide_eq_false_2 by done. cbn [negb]. intros [= <-].
      by rewrite getitem_lacks. }
  rewrite bool_decide_eq_true_2 by done. cbn [negb].
  destruct (getitem_has fieldnames record _ w H1) as [v1 ->].
  destruct (decide (lit "D1OP" ∈ fieldnames)) as [H2|H2].
  2:{ rewrite bool_decide_eq_false_2 by done. cbn [negb]. intros [= <-].
      by rewrite getitem_lacks. }
  rewrite bool_decide_eq_true_2 by done. cbn [negb].
  destruct (getitem_has fieldnames record _ w H2) as [v2 ->].
  destruct (decide (lit "DTOP" ∈ fieldnames)) as [H3|H3].
  2:{ rewrite bool_decide_eq_false_2 by done. cbn [negb]. intros [= <-].
      by rewrite getitem_lacks. }
  rewrite bool_decide_eq_true_2 by done. cbn [negb].
  destruct (getitem_has fieldnames record _ w H3) as [v3 ->].
  destruct (decide (lit "SCALE_SCORE" ∈ fieldnames)) as [H4|H4].
  2:{ rewrite bool_decide_eq_false_2 by done. cbn [negb]. intros [= <-].
      by rewrite getitem_lacks. }
  rewrite bool_decide_eq_true_2 by done. cbn [negb]. done.
Qed.

(** X13: with a data row in the file, the [KeyError] of the inspector
    names the first of [MSIS], [D1OP], [DTOP], [SCALE_SCORE], in that
    order, that the header lacks, and nothing has been printed. *)
Theorem inspector_first_missing fieldnames data key w :
  first_missing fieldnames = Some key ->
  data_rows data <> [] ->
  inspector (inr (fieldnames :: data)) w = (w, inl (KeyError key)).
Proof.
  intros Hkey Hrows. unfold inspector, DictReader. fold (data_rows data).
  destruct (data_rows data) as [|record rest]; [done|].
  cbn [map loop]. unfold bind. cbn [Nat.ltb Nat.leb].
  by rewrite (preview_first_missing _ _ _ _ Hkey).
Qed.

Lemma inspector_first_missing_witness :
  inspector (inr [short_header; sample_record]) blank_world
  = (blank_world, inl (KeyError (lit "D1OP"))).
Proof.
  apply inspector_first_missing.
  - vm_compute. reflexivity.
  - vm_compute. discriminate.
Defined.

End InspectorMore.
